(** * The puter-chat-completion adapter for Claude, and its tool normaliser

    A shallow embedding of two source files of the puterai module:

    - [lib/FunctionCalling.js]: [normalize_tools_object],
      [make_openai_tools], [make_claude_tools];
    - the Claude service ([ClaudeService], method [complete] of the
      [puter-chat-completion] interface): the message loop, the token
      count and its limit, the streaming loop with its usage counters.

    Definitions come first (modules [JS], [FunctionCalling],
    [ClaudeService]); the properties follow (modules
    [FunctionCallingFacts], [ClaudeServiceFacts]). *)

From Stdlib Require Import ZArith QArith String Ascii List Lia.
From stdpp Require Import base option list strings.

Close Scope Q_scope.
Set Default Proof Using "Type".
Set Warnings "-register-all".

(** ** JavaScript values and control *)

Module JS.

(** A reference into the heap: the index of an array or of an object. *)
Abbreviation loc := nat.

(** The JavaScript values the adapter handles as data.  An array is a
    reference, since the message loop pushes onto arrays that the caller
    may share; an object that the code only passes along or reads is a
    value, with its properties in the order in which they were set (an
    object has each key once; on a list that repeats a key, the first
    field stands for the property). *)
Inductive value : Type :=
| undefined
| null
| boolean (b : bool)
| number (n : Z)
| str (s : string)
| array (a : loc)
| object (fields : list (string * value)).

(** [!!v] for a property that holds a string or is missing. *)
Definition truthy (s : option string) : bool :=
  match s with
  | Some s => negb (String.eqb s "")
  | None => false
  end.

(** [!!v] for any value. *)
Definition to_boolean (v : value) : bool :=
  match v with
  | undefined | null => false
  | boolean b => b
  | number n => negb (n =? 0)%Z
  | str s => negb (String.eqb s "")
  | array _ | object _ => true
  end.

(** [v == null]: [v] is [undefined] or [null]. *)
Definition is_nullish (v : value) : bool :=
  match v with
  | undefined | null => true
  | _ => false
  end.

(** [a || b] on values that are at hand. *)
Definition or (a b : value) : value := if to_boolean a then a else b.

(** [a ?? d] on values. *)
Definition coalesce (a d : value) : value := if is_nullish a then d else a.

(** [a ?? d] for a property that is missing or nullish ([None]). *)
Definition nullish {A} (a : option A) (d : A) : A :=
  match a with Some x => x | None => d end.

(** [v === s] for a string [s]. *)
Definition strict_equal_string (v : value) (s : string) : bool :=
  match v with
  | str t => String.eqb t s
  | _ => false
  end.

(** What a call produces: a value, or an exception.  [Rejection] is an
    exception of the provider's client, by its message. *)
Inductive exn : Type :=
| TypeError
| APIError (code : string) (input_tokens : Q) (max_tokens : Z)
| Rejection (reason : string).

Inductive result (A : Type) : Type :=
| Returned (a : A)
| Threw (e : exn).
Arguments Returned {A} a.
Arguments Threw {A} e.

Definition bind {A B} (k : A → result B) (m : result A) : result B :=
  match m with
  | Returned a => k a
  | Threw e => Threw e
  end.

#[export] Instance result_ret : MRet result := @Returned.
#[export] Instance result_bind : MBind result := @bind.

(** Reading a property of [undefined] throws a [TypeError]. *)
Definition deref {A} (o : option A) : result A :=
  match o with Some a => Returned a | None => Threw TypeError end.

(** The value under a key of an object: that of the first field with the
    key, [undefined] if there is none. *)
Fixpoint field (key : string) (fields : list (string * value)) : value :=
  match fields with
  | [] => undefined
  | (k, v) :: fields => if String.eqb k key then v else field key fields
  end.

(** The value of [v.key] where the read does not throw, for the keys the
    tool functions read ([type], [function], [name], [description],
    [parameters], [input_schema]): the field of an object; [undefined] on
    a boolean, a number, a string or an array, which have none of them. *)
Definition property (v : value) (key : string) : value :=
  match v with
  | object fields => field key fields
  | _ => undefined
  end.

(** [v.key]: a [TypeError] on [undefined] and on [null]. *)
Definition get (v : value) (key : string) : result value :=
  if is_nullish v then Threw TypeError else Returned (property v key).

(** [xs.map(f)], where [f] may throw. *)
Fixpoint map {A B} (f : A → result B) (xs : list A) : result (list B) :=
  match xs with
  | [] => Returned []
  | x :: xs =>
      y ← f x; ys ← map f xs; Returned (y :: ys)
  end.

End JS.

(** ** lib/FunctionCalling.js *)

Module FunctionCalling.
Import JS.

(** A tool, a function descriptor and a JSON schema are values as the
    caller passes them: objects with any properties, of which the code
    reads [type], [function], [name], [description], [parameters] and
    [input_schema], or anything else a request may hold in their place. *)

(** [{ type: 'object' }] *)
Definition object_schema : value := object [("type", str "object")].

(** The inner arrow function [normalize_function]: [normal_fn] starts as
    [{}] and gets [parameters], then [name] and [description] if they
    are truthy. *)
Definition normalize_function (fn : value) : result value :=
  parameters ← (parameters ← get fn "parameters";
                if to_boolean parameters then Returned parameters
                else get fn "input_schema");
  let normal_fn := [("parameters", coalesce parameters object_schema)] in
  name ← get fn "name";
  let normal_fn :=
    if to_boolean name then normal_fn ++ [("name", name)] else normal_fn in
  description ← get fn "description";
  let normal_fn :=
    if to_boolean description then normal_fn ++ [("description", description)]
    else normal_fn in
  Returned (object normal_fn).

(** [{ type: 'function', function: normal_fn }] *)
Definition function_tool (normal_fn : value) : value :=
  object [("type", str "function"); ("function", normal_fn)].

(** The body of the loop for one [tool = tools[i]]. *)
Definition normalized_tool (tool : value) : result value :=
  input_schema ← get tool "input_schema";
  if to_boolean input_schema then
    normal_fn ← normalize_function tool;
    Returned (function_tool normal_fn)
  else
    type ← get tool "type";
    if strict_equal_string type "function" then
      fn ← get tool "function";
      normal_fn ← normalize_function fn;
      Returned (function_tool normal_fn)
    else
      normal_fn ← normalize_function tool;
      Returned (function_tool normal_fn).

(** [for ( let i=0 ; i < tools.length ; i++ ) { ... tools[i] = normalized_tool }]:
    [todo] is [tools.length - i]. *)
Fixpoint normalize_loop (todo i : nat) (tools : list value) : result (list value) :=
  match todo with
  | 0 => Returned tools
  | S todo =>
      t ← deref (tools !! i);
      normalized ← normalized_tool t;
      normalize_loop todo (S i) (<[i := normalized]> tools)
  end.

Definition normalize_tools_object (tools : list value) : result (list value) :=
  normalize_loop (length tools) 0 tools.

Definition make_openai_tools (tools : list value) : list value := tools.

(** [tools] is [None] for a falsy argument (an array, also an empty one,
    is truthy); the result is [None] for [undefined].  The destructuring
    of [tool.function] reads its three properties, and throws on
    [undefined] and [null]. *)
Definition make_claude_tools (tools : option (list value))
  : result (option (list value)) :=
  match tools with
  | None => Returned None
  | Some tools =>
      mapped ← JS.map (λ tool,
        function ← get tool "function";
        name ← get function "name";
        description ← get function "description";
        parameters ← get function "parameters";
        Returned (object [("name", name);
                          ("description", description);
                          ("input_schema", parameters)])) tools;
      Returned (Some mapped)
  end.

(** *** The vocabulary of the tool properties *)

(** The object that the dispatch hands to [normalize_function]: the tool
    itself when its [input_schema] is truthy (case a), its [function]
    when its [type] is ['function'] (case b), the tool itself otherwise
    (case c). *)
Definition descriptor (tool : value) : result value :=
  input_schema ← get tool "input_schema";
  if to_boolean input_schema then Returned tool
  else
    type ← get tool "type";
    if strict_equal_string type "function" then get tool "function"
    else Returned tool.

(** The function object built from [parameters], and from a [name] and a
    [description] that are there when they are truthy. *)
Definition function_object (parameters name description : value) : value :=
  object ([("parameters", parameters)] ++
          (if to_boolean name then [("name", name)] else []) ++
          (if to_boolean description then [("description", description)] else [])).

(** What [normalize_function] makes of a descriptor that can be read. *)
Definition normal_fn_of (fn : value) : value :=
  function_object
    (coalesce (or (property fn "parameters") (property fn "input_schema"))
              object_schema)
    (property fn "name") (property fn "description").

(** A tool in the normal form: [type: 'function'] and a [function] that
    holds truthy [parameters], then a [name] and a [description] where
    they are truthy, and nothing else. *)
Definition canonical (t : value) : Prop :=
  ∃ parameters name description,
    to_boolean parameters = true ∧
    t = function_tool (function_object parameters name description).

(** A tool in Claude's shape: [{ name, description, input_schema }]. *)
Definition claude_shape (name description input_schema : value) : value :=
  object [("name", name); ("description", description);
          ("input_schema", input_schema)].

(** *** Sample tools *)

(** One per accepted shape: the Claude shape (a), the OpenAI shape (b),
    the bare descriptor (c); one whose name is the empty string; one with
    a [parameters] that is there but falsy, one with such an
    [input_schema], and one with the [type] but with its properties on
    the tool itself. *)
Definition city_schema : value :=
  object [("type", str "object");
          ("properties", object [("city", object [("type", str "string")])])].

Definition claude_style : value :=
  object [("name", str "get_weather");
          ("description", str "Weather of a city");
          ("input_schema", city_schema)].

Definition openai_style : value :=
  object [("type", str "function");
          ("function", object [("name", str "get_time");
                               ("parameters", city_schema)])].

Definition bare_style : value :=
  object [("name", str "ping"); ("description", str "Ping")].

Definition unnamed_style : value :=
  object [("name", str ""); ("input_schema", city_schema)].

Definition falsy_parameters : value :=
  object [("name", str "f"); ("parameters", boolean false)].

Definition falsy_input_schema : value :=
  object [("name", str "f"); ("input_schema", boolean false)].

Definition flat_typed : value :=
  object [("type", str "function"); ("name", str "ping");
          ("parameters", city_schema)].

Definition sample_tools : list value := [claude_style; openai_style; bare_style].

Definition sample_claude_tools : list value :=
  [ claude_shape (str "get_weather") (str "Weather of a city") city_schema;
    claude_shape (str "now") undefined (object [("type", str "object")]) ].

End FunctionCalling.

(** ** The Claude service *)

Module ClaudeService.
Import JS.

(** *** Messages and the heap *)

(** A message object, by the two properties the loop reads and writes.
    [role] is a string when present; [None] is a missing role.  The
    other properties of the object are not touched by the loop. *)
Record message : Type := {
  role : option string;
  content : value;
}.

(** The objects the caller passes are shared with the caller: the loop
    writes to their properties and pushes onto their arrays.  A heap
    holds the message objects and the arrays, each addressed by its
    index; [messages] is then a list of references into [objects]. *)
Record heap : Type := {
  objects : list message;
  arrays : list (list value);
}.

(** [message.content = c] *)
Definition set_content (m : loc) (c : value) (h : heap) : heap :=
  {| objects := alter (λ o, {| role := role o; content := c |}) m (objects h);
     arrays := arrays h |}.

(** [message.role = r] *)
Definition set_role (m : loc) (r : string) (h : heap) : heap :=
  {| objects := alter (λ o, {| role := Some r; content := content o |}) m (objects h);
     arrays := arrays h |}.

(** An array literal [[v1, ..., vn]]: a new array, and its reference. *)
Definition new_array (vs : list value) (h : heap) : loc * heap :=
  (length (arrays h),
   {| objects := objects h; arrays := arrays h ++ [vs] |}).

(** The elements of an array, as the spread [...v] reads them; a value
    that is no array of the heap is not iterable here. *)
Definition spread (h : heap) (v : value) : result (list value) :=
  match v with
  | array a => deref (arrays h !! a)
  | _ => Threw TypeError
  end.

(** [target.push(...vs)] *)
Definition push (target : value) (vs : list value) (h : heap) : result heap :=
  match target with
  | array a =>
      old ← deref (arrays h !! a);
      Returned {| objects := objects h; arrays := <[a := old ++ vs]> (arrays h) |}
  | _ => Threw TypeError
  end.

(** Modelled from the spec: [whatis] of [util/langutil] is not among the
    sources.  Step 2 of the spec's MessageAdapter ("if content is not
    already a sequence, wrap it in a one-element sequence") fixes the one
    answer the loop tests: ['array'] exactly on arrays. *)
Definition whatis (v : value) : string :=
  match v with
  | array _ => "array"
  | null => "null"
  | undefined => "undefined"
  | boolean _ => "boolean"
  | number _ => "number"
  | str _ => "string"
  | object _ => "object"
  end.

(** [{ type: 'text', text }] *)
Definition text_part (text : string) : value :=
  object [("type", str "text"); ("text", str text)].

(** [Array.isArray] is a function, so as a condition it is truthy. *)
Definition Array_isArray : bool := true.

(** The variables of the message loop. *)
Record loop_state : Type := {
  store : heap;
  adapted_messages : list loc;
  system_prompts : list value;
  previous_was_user : bool;
}.

Definition start (h : heap) : loop_state :=
  {| store := h; adapted_messages := []; system_prompts := [];
     previous_was_user := false |}.

(** The three assignments that open a turn: a string [content] becomes
    a text part, a [content] that is no array becomes a one-element
    array, a falsy [role] becomes ['user']. *)
Definition prepare_message (m : loc) (h : heap) : result heap :=
  msg ← deref (objects h !! m);
  let h :=
    match content msg with
    | str text => set_content m (text_part text) h
    | _ => h
    end in
  msg ← deref (objects h !! m);
  let h :=
    if bool_decide (whatis (content msg) ≠ "array") then
      let '(a, h) := new_array [content msg] h in
      set_content m (array a) h
    else h in
  msg ← deref (objects h !! m);
  Returned (if negb (truthy (role msg)) then set_role m "user" h else h).

(** One turn of [for ( const message of messages )]. *)
Definition message_turn (s : loop_state) (m : loc) : result loop_state :=
  h ← prepare_message m (store s);
  msg ← deref (objects h !! m);
  if bool_decide (role msg = Some "user") && previous_was_user s then
    last_msg ← deref (last (adapted_messages s) ≫= λ l, objects h !! l);
    pushed ← (if Array_isArray then spread h (content msg)
              else Returned [content msg]);
    h ← push (content last_msg) pushed h;
    Returned {| store := h;
                adapted_messages := adapted_messages s;
                system_prompts := system_prompts s;
                previous_was_user := previous_was_user s |}
  else if bool_decide (role msg = Some "system") then
    parts ← spread h (content msg);
    Returned {| store := h;
                adapted_messages := adapted_messages s;
                system_prompts := system_prompts s ++ parts;
                previous_was_user := previous_was_user s |}
  else
    Returned {| store := h;
                adapted_messages := adapted_messages s ++ [m];
                system_prompts := system_prompts s;
                previous_was_user :=
                  if bool_decide (role msg = Some "user") then true
                  else previous_was_user s |}.

Fixpoint message_loop (s : loop_state) (messages : list loc) : result loop_state :=
  match messages with
  | [] => Returned s
  | m :: messages => s ← message_turn s m; message_loop s messages
  end.

(** *** The token count *)

(** [JSON.stringify] of the two arrays [complete] serialises.  The text
    depends on properties and on a key order that the model of a message
    does not hold, so it is an interface; a character of the result
    stands for one UTF-16 code unit, and [length] for [.length]. *)
Class JSON : Type := {
  stringify_messages : heap → list loc → string;
  stringify_values : heap → list value → string;
}.

Definition MAX_CLAUDE_INPUT_TOKENS : Z := 10000.

(** [text.length / 4]: a division of numbers, exact and not rounded. *)
Definition token_count `{JSON} (s : loop_state) : Q :=
  let text := stringify_messages (store s) (adapted_messages s) +:+
              stringify_values (store s) (system_prompts s) in
  Z.of_nat (String.length text) # 4.

(** [a > b] on numbers. *)
Definition gt (a b : Q) : bool := negb (Qle_bool a b).

(** *** The provider and its events *)

Module Usage.
Record t : Type := {
  input_tokens : option Z;
  output_tokens : option Z;
}.
End Usage.

Module Delta.
Record t : Type := {
  type : option string;
  text : option string;
}.
End Delta.

(** The [message] property of a [message_start] event. *)
Module StartMessage.
Record t : Type := {
  usage : option Usage.t;
}.
End StartMessage.

(** An event of the stream, by the properties the loop reads.  [None] is
    a missing (or nullish) property. *)
Module Event.
Record t : Type := {
  type : option string;
  delta : option Delta.t;
  usage : option Usage.t;
  message : option StartMessage.t;
}.
End Event.

Module Counts.
Record t : Type := {
  input_tokens : Z;
  output_tokens : Z;
}.
End Counts.

Record request : Type := {
  model : string;
  max_tokens : Z;
  temperature : Z;
  system : string;
  messages : list loc;
}.

(** What [anthropic.messages.create] resolves to. *)
Record provider_message : Type := {
  usage : option Usage.t;
  body : value;
}.

(** What [anthropic.messages.stream] gives to [for await]: the events its
    iterator yields, and then how the iteration finishes: [None] when the
    iterator is exhausted, the exception when a [next()] rejects. *)
Module MessageStream.
Record t : Type := {
  events : list Event.t;
  rejection : option exn;
}.
End MessageStream.

(** The client [this.anthropic].  A call of the provider may fail: the
    awaited promise rejects, and the [await] throws. *)
Class Anthropic : Type := {
  messages_create : request → result provider_message;
  messages_stream : request → result MessageStream.t;
}.

(** *** Effects *)

(** What [complete] and its background task do to the outside, in the
    order they do it: calls of the client, pulls from the event iterator
    ([None] when it is exhausted), writes to and the end of the
    [PassThrough] stream, the resolution of [usage_promise]. *)
Inductive effect : Type :=
| call_messages_create (r : request)
| call_messages_stream (r : request)
| completion_next (event : option Event.t)
| stream_write (chunk : string)
| stream_end
| usage_promise_resolve (counts : Counts.t).

(** A computation with effects: the effects performed, then the value or
    the exception that stopped it. *)
Definition task (A : Type) : Type := list effect * result A.

Definition task_bind_def {A B} (k : A → task B) (m : task A) : task B :=
  match m with
  | (done, Returned a) => let '(more, r) := k a in (done ++ more, r)
  | (done, Threw e) => (done, Threw e)
  end.

#[export] Instance task_ret : MRet task := λ A a, ([], Returned a).
#[export] Instance task_bind : MBind task := @task_bind_def.

Definition perform (e : effect) : task () := ([e], Returned ()).
Definition lift {A} (r : result A) : task A := ([], r).
Definition throw {A} (e : exn) : task A := ([], Threw e).

(** An [async] function that is called and not awaited: its effects
    happen, its rejection reaches nobody. *)
Definition detached (t : task ()) : task () := (t.1, Returned ()).

(** *** JSON text of a stream line *)

Definition quotation_mark : ascii := "034".
Definition reverse_solidus : ascii := "\".
Definition line_feed : ascii := "010".

Definition hex_digit (n : nat) : ascii :=
  nth n (list_ascii_of_string "0123456789abcdef") "0"%char.

(** [QuoteJSONString] on one code unit below 256: the short escapes, the
    [\u00xx] form for the other control characters, and the unit itself
    otherwise. *)
Definition quote_code_unit (c : ascii) : string :=
  let n := nat_of_ascii c in
  let esc x := String reverse_solidus (String x "") in
  if n =? 8 then esc "b"%char
  else if n =? 9 then esc "t"%char
  else if n =? 10 then esc "n"%char
  else if n =? 12 then esc "f"%char
  else if n =? 13 then esc "r"%char
  else if n =? 34 then esc quotation_mark
  else if n =? 92 then esc reverse_solidus
  else if n <? 32 then
    esc "u"%char +:+ "00" +:+
    String (hex_digit (n / 16)) (String (hex_digit (n mod 16)) "")
  else String c "".

Fixpoint quote_code_units (s : string) : string :=
  match s with
  | EmptyString => ""
  | String c s => quote_code_unit c +:+ quote_code_units s
  end.

Definition quote (s : string) : string :=
  String quotation_mark (quote_code_units s +:+ String quotation_mark "").

(** [JSON.stringify({ text })]: a property whose value is [undefined] is
    left out. *)
Definition stringify_text (text : option string) : string :=
  match text with
  | Some text => "{" +:+ quote "text" +:+ ":" +:+ quote text +:+ "}"
  | None => "{}"
  end.

(** *** The streaming loop *)

(** [if ( tokens ) total += tokens] *)
Definition add_tokens (total : Z) (tokens : option Z) : Z :=
  match tokens with
  | Some n => if bool_decide (n ≠ 0%Z) then (total + n)%Z else total
  | None => total
  end.

(** [event?.usage ?? event?.message?.usage] *)
Definition usage_of (event : Event.t) : option Usage.t :=
  match Event.usage event with
  | Some u => Some u
  | None => Event.message event ≫= StartMessage.usage
  end.

Definition count (counts : Counts.t) (event : Event.t) : Counts.t :=
  let input_tokens := usage_of event ≫= Usage.input_tokens in
  let output_tokens := usage_of event ≫= Usage.output_tokens in
  {| Counts.input_tokens := add_tokens (Counts.input_tokens counts) input_tokens;
     Counts.output_tokens := add_tokens (Counts.output_tokens counts) output_tokens |}.

(** [event.type !== 'content_block_delta' || event.delta.type !== 'text_delta'] *)
Definition skipped (event : Event.t) : result bool :=
  if bool_decide (Event.type event ≠ Some "content_block_delta") then Returned true
  else
    delta ← deref (Event.delta event);
    Returned (bool_decide (Delta.type delta ≠ Some "text_delta")).

(** [for await ( const event of completion )], on the events the
    iterator yields and on how it finishes. *)
Fixpoint for_await (counts : Counts.t) (completion : list Event.t)
    (rejection : option exn) : task Counts.t :=
  match completion with
  | [] =>
      match rejection with
      | None => _ ← perform (completion_next None); mret counts
      | Some e => throw e
      end
  | event :: completion =>
      _ ← perform (completion_next (Some event));
      let counts := count counts event in
      skip ← lift (skipped event);
      if skip : bool then for_await counts completion rejection
      else
        delta ← lift (deref (Event.delta event));
        let str := stringify_text (Delta.text delta) in
        _ ← perform (stream_write (str +:+ String line_feed ""));
        for_await counts completion rejection
  end.

Definition no_counts : Counts.t :=
  {| Counts.input_tokens := 0; Counts.output_tokens := 0 |}.

(** The body of the [async] arrow function of the streaming branch. *)
Definition stream_task `{Anthropic} (r : request) : task () :=
  _ ← perform (call_messages_stream r);
  completion ← lift (messages_stream r);
  counts ← for_await no_counts (MessageStream.events completion)
                     (MessageStream.rejection completion);
  _ ← perform stream_end;
  perform (usage_promise_resolve counts).

(** *** [complete] *)

Fixpoint replace (pattern replacement s : string) : string :=
  if String.prefix pattern s then
    replacement +:+ String.substring (String.length pattern) (String.length s) s
  else
    match s with
    | EmptyString => ""
    | String c s => String c (replace pattern replacement s)
    end.

(** The white space and line terminators that [trim] removes, among the
    code units below 256: tab to carriage return, space, no-break space. *)
Definition white_space (c : ascii) : bool :=
  let n := nat_of_ascii c in
  (n =? 32) || ((9 <=? n) && (n <=? 13)) || (n =? 160).

Fixpoint trim_start (s : list ascii) : list ascii :=
  match s with
  | c :: s' => if white_space c then trim_start s' else s
  | [] => []
  end.

Definition trim (s : string) : string :=
  string_of_list_ascii
    (rev (trim_start (rev (trim_start (list_ascii_of_string s))))).

Definition PUTER_PROMPT : string :=
  let nl := String line_feed "" in
  trim (replace nl " " (
    nl +:+
    "    You are running on an open-source platform called Puter," +:+ nl +:+
    "    as the Claude implementation for a driver interface" +:+ nl +:+
    "    called puter-chat-completion." +:+ nl +:+
    "    " +:+ nl +:+
    "    The following JSON contains system messages from the" +:+ nl +:+
    "    user of the driver interface (typically an app on Puter):" +:+ nl)).

Definition get_default_model : string := "claude-3-5-sonnet-latest".

(** What [complete] returns: the intermediate value of the streaming
    branch ([{ stream: true, response, usage_promise }], whose stream and
    promise are what the effects act on), or the result of the plain
    branch. *)
Inductive completion : Type :=
| intermediate (stream : bool)
| completed (message : provider_message) (usage : option Usage.t)
    (finish_reason : string).

Definition complete `{JSON} `{Anthropic}
    (h : heap) (messages : list loc) (stream : bool) (model : option string)
  : task completion :=
  s ← lift (message_loop (start h) messages);
  let token_count := token_count s in
  if gt token_count (inject_Z MAX_CLAUDE_INPUT_TOKENS) then
    throw (APIError "max_tokens_exceeded" token_count MAX_CLAUDE_INPUT_TOKENS)
  else
    let r := {| model := nullish model get_default_model;
                max_tokens := 1000;
                temperature := 0;
                system := PUTER_PROMPT +:+ stringify_values (store s) (system_prompts s);
                messages := adapted_messages s |} in
    if stream then
      _ ← detached (stream_task r);
      mret (intermediate true)
    else
      _ ← perform (call_messages_create r);
      msg ← lift (messages_create r);
      mret (completed msg (usage msg) "stop").

(** *** The reader's side of a stream line *)

Definition unescape (c : ascii) : option ascii :=
  let n := nat_of_ascii c in
  if n =? 98 then Some (ascii_of_nat 8)
  else if n =? 116 then Some (ascii_of_nat 9)
  else if n =? 110 then Some (ascii_of_nat 10)
  else if n =? 102 then Some (ascii_of_nat 12)
  else if n =? 114 then Some (ascii_of_nat 13)
  else if n =? 34 then Some quotation_mark
  else if n =? 92 then Some reverse_solidus
  else if n =? 47 then Some "/"%char
  else None.

Definition hex_value (c : ascii) : option nat :=
  let n := nat_of_ascii c in
  if (48 <=? n) && (n <=? 57) then Some (n - 48)
  else if (97 <=? n) && (n <=? 102) then Some (n - 87)
  else if (65 <=? n) && (n <=? 70) then Some (n - 55)
  else None.

(** Reads the characters of a JSON string after its opening quotation
    mark: the text, and what follows the closing quotation mark.  Only
    code units below 256 are represented. *)
Fixpoint unquote (s : string) : option (string * string) :=
  match s with
  | EmptyString => None
  | String c rest =>
      if Ascii.eqb c quotation_mark then Some (EmptyString, rest)
      else if Ascii.eqb c reverse_solidus then
        match rest with
        | String e rest =>
            if Ascii.eqb e "u" then
              match rest with
              | String h1 (String h2 (String h3 (String h4 rest))) =>
                  a ← hex_value h1; b ← hex_value h2;
                  c ← hex_value h3; d ← hex_value h4;
                  if (a =? 0) && (b =? 0) then
                    '(text, after) ← unquote rest;
                    Some (String (ascii_of_nat (16 * c + d)) text, after)
                  else None
              | _ => None
              end
            else
              u ← unescape e;
              '(text, after) ← unquote rest;
              Some (String u text, after)
        | EmptyString => None
        end
      else
        '(text, after) ← unquote rest;
        Some (String c text, after)
  end.

Fixpoint strip_prefix (p s : string) : option string :=
  match p, s with
  | EmptyString, _ => Some s
  | String a p, String b s => if Ascii.eqb a b then strip_prefix p s else None
  | String _ _, EmptyString => None
  end.

(** The StreamEvent a line carries: [Some None] for an object without
    [text], [Some (Some text)] for [{ text }], [None] if the line is not
    of that form. *)
Definition parse_line (line : string) : option (option string) :=
  let nl := String line_feed "" in
  if String.eqb line ("{}" +:+ nl) then Some None
  else
    body ← strip_prefix ("{" +:+ quote "text" +:+ ":" +:+ String quotation_mark "") line;
    '(text, after) ← unquote body;
    if String.eqb after ("}" +:+ nl) then Some (Some text) else None.

(** The chunks written to the stream, and the texts of the StreamEvents
    read back from them. *)
Definition written (trace : list effect) : list string :=
  omap (λ e, match e with stream_write chunk => Some chunk | _ => None end) trace.

Definition emitted_texts (trace : list effect) : list string :=
  omap (λ chunk, mjoin (parse_line chunk)) (written trace).

(** The delta of a text-delta content event; [None] on any other event. *)
Definition text_delta (event : Event.t) : option Delta.t :=
  if bool_decide (Event.type event = Some "content_block_delta") then
    delta ← Event.delta event;
    if bool_decide (Delta.type delta = Some "text_delta") then Some delta else None
  else None.

(** The events pulled from the iterator, with the [None] of exhaustion. *)
Definition pulled (trace : list effect) : list (option Event.t) :=
  omap (λ e, match e with completion_next ev => Some ev | _ => None end) trace.

(** The totals with which [usage_promise] was resolved, one per call. *)
Definition resolved (trace : list effect) : list Counts.t :=
  omap (λ e, match e with usage_promise_resolve c => Some c | _ => None end) trace.

(** A provider event is well formed when a [content_block_delta] carries
    its [delta]; on any other the loop throws on [event.delta.type]. *)
Definition well_formed (event : Event.t) : Prop :=
  Event.type event = Some "content_block_delta" → is_Some (Event.delta event).

(** The token deltas of an event, 0 where it reports none. *)
Definition input_delta (event : Event.t) : Z :=
  default 0%Z (usage_of event ≫= Usage.input_tokens).
Definition output_delta (event : Event.t) : Z :=
  default 0%Z (usage_of event ≫= Usage.output_tokens).

Definition sum (zs : list Z) : Z := foldr Z.add 0%Z zs.

(** *** The vocabulary of the message properties *)

(** The content parts of a message as the loop takes them: the text part
    of a string, the elements of an array, the value itself otherwise. *)
Definition parts (h : heap) (msg : message) : list value :=
  match content msg with
  | str text => [text_part text]
  | array a => default [] (arrays h !! a)
  | v => [v]
  end.

Definition default_role (r : option string) : option string :=
  if truthy r then r else Some "user".

Definition is_array (v : value) : Prop := ∃ a, v = array a.

(** The role of the message object at a reference. *)
Definition role_at (h : heap) (m : loc) : option string :=
  objects h !! m ≫= role.

(** The content parts of the system messages of a sequence. *)
Definition system_parts (h : heap) (messages : list loc) : list value :=
  m ← messages;
  match objects h !! m with
  | Some msg => if bool_decide (role msg = Some "system") then parts h msg else []
  | None => []
  end.

(** A heap and a message sequence as a caller can build them: every
    element of [messages] is an object, and an array [content] refers to
    an array. *)
Definition valid_heap (h : heap) : Prop :=
  ∀ o msg a, objects h !! o = Some msg → content msg = array a →
    a < length (arrays h).

Definition valid_messages (h : heap) (messages : list loc) : Prop :=
  ∀ m, m ∈ messages → m < length (objects h).

(** Arrays only have elements pushed at their end. *)
Definition grows (arrs arrs' : list (list value)) : Prop :=
  ∀ a l, arrs !! a = Some l → ∃ pushed, arrs' !! a = Some (l ++ pushed).

(** What the turns on the messages [touched] may have done to a heap:
    no object is added; an array only has elements pushed at its end; a
    message object that is not touched is as it was; a touched one has an
    array as [content] (the one it had, if it had one), with the parts it
    had at their front, and its role, or ['user'] if that was falsy. *)
Definition evolves (touched : list loc) (h h' : heap) : Prop :=
  length (objects h') = length (objects h) ∧
  grows (arrays h) (arrays h') ∧
  (∀ o msg, objects h !! o = Some msg →
     ∃ msg', objects h' !! o = Some msg' ∧
       (o ∉ touched → msg' = msg) ∧
       (o ∈ touched → is_array (content msg') ∧ role msg' = default_role (role msg)) ∧
       (∀ a, content msg = array a → content msg' = array a) ∧
       parts h msg `prefix_of` parts h' msg').

(** What holds of the loop variables between two turns. *)
Definition loop_invariant (s : loop_state) : Prop :=
  valid_heap (store s) ∧
  (∀ m, m ∈ adapted_messages s →
     ∃ msg, objects (store s) !! m = Some msg ∧ is_array (content msg) ∧
            truthy (role msg) = true ∧ role msg ≠ Some "system") ∧
  (previous_was_user s = true → adapted_messages s ≠ []) ∧
  (previous_was_user s = false →
     ∀ m, m ∈ adapted_messages s → role_at (store s) m ≠ Some "user") ∧
  (∀ i j m1 m2,
     adapted_messages s !! i = Some m1 → adapted_messages s !! j = Some m2 →
     role_at (store s) m1 = Some "user" → role_at (store s) m2 = Some "user" →
     i = j).

(** *** Sample data *)

Definition text_event (text : string) : Event.t :=
  {| Event.type := Some "content_block_delta";
     Event.delta := Some {| Delta.type := Some "text_delta"; Delta.text := Some text |};
     Event.usage := None; Event.message := None |}.

Definition sample_events : list Event.t :=
  [ {| Event.type := Some "message_start"; Event.delta := None; Event.usage := None;
       Event.message := Some {| StartMessage.usage :=
         Some {| Usage.input_tokens := Some 12%Z; Usage.output_tokens := Some 1%Z |} |} |};
    text_event "Hel";
    text_event "lo";
    {| Event.type := Some "message_delta";
       Event.delta := Some {| Delta.type := None; Delta.text := None |};
       Event.usage := Some {| Usage.input_tokens := None; Usage.output_tokens := Some 7%Z |};
       Event.message := None |};
    {| Event.type := Some "message_stop"; Event.delta := None; Event.usage := None;
       Event.message := None |} ].

Definition sample_client : Anthropic :=
  {| messages_create := λ _,
       Returned
         {| usage := Some {| Usage.input_tokens := Some 12%Z;
                             Usage.output_tokens := Some 8%Z |};
            body := str "Hello" |};
     messages_stream := λ _,
       Returned {| MessageStream.events := sample_events;
                   MessageStream.rejection := None |} |}.

(** A provider that fails: [messages.create] rejects, and the iterator
    of [messages.stream] rejects after one text delta. *)
Definition failing_client : Anthropic :=
  {| messages_create := λ _, Threw (Rejection "overloaded");
     messages_stream := λ _,
       Returned {| MessageStream.events := [text_event "Hel"];
                   MessageStream.rejection := Some (Rejection "overloaded") |} |}.

(** A stand-in for [JSON.stringify] that writes one pair of braces per
    element. *)
Definition sample_json : JSON :=
  {| stringify_messages := λ _ ms, "[" +:+ String.concat "," ((λ _, "{}") <$> ms) +:+ "]";
     stringify_values := λ _ vs, "[" +:+ String.concat "," ((λ _, "{}") <$> vs) +:+ "]" |}.

Definition sample_request : request :=
  {| model := get_default_model; max_tokens := 1000; temperature := 0;
     system := PUTER_PROMPT +:+ "[]"; messages := [0] |}.

(** A user turn, an assistant turn, a user turn. *)
Definition alternating_heap : heap :=
  {| objects :=
       [ {| role := Some "user"; content := str "a" |};
         {| role := Some "assistant"; content := str "b" |};
         {| role := Some "user"; content := str "c" |} ];
     arrays := [] |}.

(** The loop variables after the first two turns on it, and after the
    third. *)
Definition assistant_placed : loop_state :=
  {| store :=
       {| objects :=
            [ {| role := Some "user"; content := array 0 |};
              {| role := Some "assistant"; content := array 1 |};
              {| role := Some "user"; content := str "c" |} ];
          arrays := [ [text_part "a"]; [text_part "b"] ] |};
     adapted_messages := [0; 1];
     system_prompts := [];
     previous_was_user := true |}.

Definition user_merged : loop_state :=
  {| store :=
       {| objects :=
            [ {| role := Some "user"; content := array 0 |};
              {| role := Some "assistant"; content := array 1 |};
              {| role := Some "user"; content := array 2 |} ];
          arrays := [ [text_part "a"]; [text_part "b"; text_part "c"];
                      [text_part "c"] ] |};
     adapted_messages := [0; 1];
     system_prompts := [];
     previous_was_user := true |}.

(** A conversation: a user turn, an assistant turn, a user turn with no
    role, and a system message, all with string content. *)
Definition sample_heap : heap :=
  {| objects :=
       [ {| role := Some "user"; content := str "a" |};
         {| role := Some "assistant"; content := str "b" |};
         {| role := None; content := str "c" |};
         {| role := Some "system"; content := str "be brief" |} ];
     arrays := [] |}.

(** The loop variables after the loop on that conversation. *)
Definition sample_state : loop_state :=
  {| store :=
       {| objects :=
            [ {| role := Some "user"; content := array 0 |};
              {| role := Some "assistant"; content := array 1 |};
              {| role := Some "user"; content := array 2 |};
              {| role := Some "system"; content := array 3 |} ];
          arrays :=
            [ [text_part "a"]; [text_part "b"; text_part "c"];
              [text_part "c"]; [text_part "be brief"] ] |};
     adapted_messages := [0; 1];
     system_prompts := [text_part "be brief"];
     previous_was_user := true |}.

(** *** The catalogue of models *)

Module Cost.
Record t : Type := {
  currency : string;
  tokens : Z;
  input : Z;
  output : Z;
}.
End Cost.

Module Model.
Record t : Type := {
  id : string;
  name : option string;
  aliases : option (list string);
  succeeded_by : option string;
  context : Z;
  cost : Cost.t;
  qualitative_speed : option string;
  max_output : option Z;
  training_cutoff : option string;
}.
End Model.

Definition models_ : list Model.t :=
  [ {| Model.id := "claude-3-5-sonnet-20241022";
       Model.name := Some "Claude 3.5 Sonnet";
       Model.aliases := Some ["claude-3-5-sonnet-latest"];
       Model.succeeded_by := None;
       Model.context := 200000;
       Model.cost := {| Cost.currency := "usd-cents"; Cost.tokens := 1000000;
                        Cost.input := 300; Cost.output := 1500 |};
       Model.qualitative_speed := Some "fast";
       Model.max_output := Some 8192%Z;
       Model.training_cutoff := Some "2024-04" |};
    {| Model.id := "claude-3-5-sonnet-20240620";
       Model.name := None;
       Model.aliases := None;
       Model.succeeded_by := Some "claude-3-5-sonnet-20241022";
       Model.context := 200000;
       Model.cost := {| Cost.currency := "usd-cents"; Cost.tokens := 1000000;
                        Cost.input := 300; Cost.output := 1500 |};
       Model.qualitative_speed := None;
       Model.max_output := None;
       Model.training_cutoff := None |};
    {| Model.id := "claude-3-haiku-20240307";
       Model.name := None;
       Model.aliases := None;
       Model.succeeded_by := None;
       Model.context := 200000;
       Model.cost := {| Cost.currency := "usd-cents"; Cost.tokens := 1000000;
                        Cost.input := 25; Cost.output := 125 |};
       Model.qualitative_speed := Some "fastest";
       Model.max_output := None;
       Model.training_cutoff := None |} ].

(** [models ()] of the interface. *)
Definition models : list Model.t := models_.

(** The loop of [list ()] over a catalogue: [model_names.push(model.id)],
    then [model_names.push(...model.aliases)] if there are aliases. *)
Definition model_names_of (catalogue : list Model.t) : list string :=
  foldl (λ model_names model,
           let model_names := model_names ++ [Model.id model] in
           match Model.aliases model with
           | Some aliases => model_names ++ aliases
           | None => model_names
           end)
        [] catalogue.

(** [list ()] of the interface ([list] is the type of lists here). *)
Definition list_ : list string := model_names_of models_.

(** *** The vocabulary of the further properties *)

(** The role under which the loop treats a message: its role, or
    ["user"] if that is falsy. *)
Definition effective_role (h : heap) (m : loc) : option string :=
  default_role (role_at h m).

(** The content parts of the messages of a sequence, one after the
    other. *)
Definition conversation_parts (h : heap) (messages : list loc) : list value :=
  m ← messages;
  match objects h !! m with
  | Some msg => parts h msg
  | None => []
  end.

(** No array is the content of two message objects. *)
Definition unshared (h : heap) : Prop :=
  ∀ x y msgx msgy a,
    objects h !! x = Some msgx → objects h !! y = Some msgy →
    content msgx = array a → content msgy = array a → x = y.

(** The requests sent to the provider, in order. *)
Definition provider_calls (trace : list effect) : list request :=
  omap (λ e, match e with
             | call_messages_create r | call_messages_stream r => Some r
             | _ => None
             end) trace.

(** The code units of a string. *)
Definition code_units (s : string) : list nat :=
  nat_of_ascii <$> list_ascii_of_string s.

(** A conversation on a heap with arrays: two user turns with array
    content, a system message and an assistant turn. *)
Definition array_heap : heap :=
  {| objects :=
       [ {| role := Some "user"; content := array 0 |};
         {| role := Some "system"; content := str "be brief" |};
         {| role := None; content := array 1 |};
         {| role := Some "assistant"; content := str "ok" |} ];
     arrays := [ [text_part "a"]; [text_part "b"; text_part "c"] ] |}.

End ClaudeService.

(** * Properties *)

(** ** Tool normalisation *)

Module FunctionCallingFacts.
Import JS FunctionCalling.

Lemma bind_returned {A B} (k : A → result B) (m : result A) (b : B) :
  m ≫= k = Returned b → ∃ a, m = Returned a ∧ k a = Returned b.
Proof. destruct m as [a|e]; [eauto | discriminate]. Qed.

(** The indexed loop that overwrites [tools[i]] is a map over the array. *)
Lemma normalize_loop_map (done rest : list value) :
  normalize_loop (length rest) (length done) (done ++ rest) =
  (ys ← JS.map normalized_tool rest; Returned (done ++ ys)).
Proof.
  revert done. induction rest as [|t rest IH]; intros done; simpl.
  - by rewrite app_nil_r.
  - rewrite list_lookup_middle by done. simpl.
    destruct (normalized_tool t) as [nt|e]; simpl; [|done].
    replace (<[length done:=nt]> (done ++ t :: rest)) with ((done ++ [nt]) ++ rest).
    + replace (S (length done)) with (length (done ++ [nt]))
        by (rewrite length_app; simpl; lia).
      rewrite IH. destruct (JS.map normalized_tool rest); simpl; [|done].
      by rewrite <- app_assoc.
    + rewrite <- app_assoc. simpl.
      rewrite insert_app_r_alt by lia. by rewrite Nat.sub_diag.
Qed.

Lemma normalize_tools_object_map (tools : list value) :
  normalize_tools_object tools = JS.map normalized_tool tools.
Proof.
  unfold normalize_tools_object.
  pose proof (normalize_loop_map [] tools) as Hloop. simpl in Hloop.
  rewrite Hloop. by destruct (JS.map normalized_tool tools).
Qed.

Lemma map_returned_lookup {A B} (f : A → result B) (xs : list A) (ys : list B) :
  JS.map f xs = Returned ys →
  length ys = length xs ∧
  ∀ i x, xs !! i = Some x → ∃ y, ys !! i = Some y ∧ f x = Returned y.
Proof.
  revert ys. induction xs as [|x xs IH]; intros ys; simpl.
  - intros [= <-]. split; [done|]. intros i x Hx. by rewrite lookup_nil in Hx.
  - intros Hm. apply bind_returned in Hm as (y & Hy & Hm).
    apply bind_returned in Hm as (ys' & Hys & [= <-]).
    destruct (IH _ Hys) as [Hlen Hlk]. split; [simpl; congruence|].
    intros [|i] x' Hx; simpl in *.
    + injection Hx as <-. eauto.
    + eauto.
Qed.

Lemma map_all_returned {A B} (f : A → result B) (xs : list A) :
  Forall (λ x, ∃ y, f x = Returned y) xs → ∃ ys, JS.map f xs = Returned ys.
Proof.
  induction 1 as [|x xs [y Hy] _ [ys Hys]]; simpl; [eauto|].
  rewrite Hy, Hys. simpl. eauto.
Qed.

Lemma map_returned_all {A B} (f : A → result B) (xs : list A) (ys : list B) :
  JS.map f xs = Returned ys → Forall (λ x, ∃ y, f x = Returned y) xs.
Proof.
  intros Hm. destruct (map_returned_lookup _ _ _ Hm) as [_ Hlk].
  apply Forall_lookup_2. intros i x Hx.
  destruct (Hlk _ _ Hx) as (y & _ & Hy). eauto.
Qed.

Lemma map_threw {A B} (f : A → result B) (xs : list A) (e : exn) :
  JS.map f xs = Threw e → ∃ x, x ∈ xs ∧ f x = Threw e.
Proof.
  induction xs as [|x xs IH]; simpl; [done|].
  destruct (f x) as [y|e'] eqn:Hx; simpl.
  - destruct (JS.map f xs) as [ys|e'] eqn:Hxs; simpl; [done|].
    intros [= ->]. destruct (IH eq_refl) as (x' & Hin & Hx').
    exists x'. split; [by right | done].
  - intros [= ->]. exists x. split; [by left | done].
Qed.

Lemma map_fmap {A B} (f : A → result B) (g : A → B) (xs : list A) :
  Forall (λ x, f x = Returned (g x)) xs → JS.map f xs = Returned (g <$> xs).
Proof.
  induction 1 as [|x xs Hx _ IH]; simpl; [done|]. by rewrite Hx, IH.
Qed.

(** *** Reading properties *)

Lemma get_returned (v : value) (key : string) :
  is_nullish v = false → get v key = Returned (property v key).
Proof. unfold get. by intros ->. Qed.

Lemma get_threw (v : value) (key : string) :
  is_nullish v = true → get v key = Threw TypeError.
Proof. unfold get. by intros ->. Qed.

Lemma strict_equal_string_eq (v : value) (s : string) :
  strict_equal_string v s = true ↔ v = str s.
Proof.
  destruct v; simpl; split; try done.
  - by intros ->%String.eqb_eq.
  - intros [= ->]. by apply String.eqb_eq.
Qed.

Lemma truthy_not_nullish (v : value) : to_boolean v = true → is_nullish v = false.
Proof. by destruct v. Qed.

(** [(p || s) ?? { type: 'object' }], case by case. *)
Lemma parameters_cases (p s : value) :
  coalesce (or p s) object_schema =
  if to_boolean p then p
  else if is_nullish s then object [("type", str "object")] else s.
Proof.
  unfold coalesce, or. destruct (to_boolean p) eqn:Hp.
  - by rewrite (truthy_not_nullish _ Hp).
  - by destruct s.
Qed.

(** *** The loop body *)

Lemma normalize_function_returns (fn : value) :
  is_nullish fn = false → normalize_function fn = Returned (normal_fn_of fn).
Proof.
  intros Hfn. unfold normalize_function, normal_fn_of, function_object, or.
  rewrite !(get_returned _ _ Hfn). simpl.
  destruct (to_boolean (property fn "parameters")); simpl;
    rewrite ?(get_returned _ _ Hfn); simpl;
    by destruct (to_boolean (property fn "name")),
               (to_boolean (property fn "description")).
Qed.

Lemma normalize_function_throws (fn : value) :
  is_nullish fn = true → normalize_function fn = Threw TypeError.
Proof.
  intros Hfn. unfold normalize_function, get. rewrite Hfn. reflexivity.
Qed.

Lemma normalized_tool_descriptor (t : value) :
  normalized_tool t =
  (f ← descriptor t; normal_fn ← normalize_function f;
   Returned (function_tool normal_fn)).
Proof.
  unfold normalized_tool, descriptor.
  destruct (get t "input_schema") as [s|]; simpl; [|done].
  destruct (to_boolean s); simpl; [done|].
  destruct (get t "type") as [ty|]; simpl; [|done].
  by destruct (strict_equal_string ty "function").
Qed.

(** The dispatch on a tool that is not nullish. *)
Lemma descriptor_cases (t : value) :
  is_nullish t = false →
  descriptor t =
  Returned (if to_boolean (property t "input_schema") then t
            else if strict_equal_string (property t "type") "function"
                 then property t "function" else t).
Proof.
  intros Ht. unfold descriptor, get. rewrite Ht. simpl.
  destruct (to_boolean (property t "input_schema")); [done|].
  by destruct (strict_equal_string (property t "type") "function").
Qed.

(** The loop body returns exactly when the dispatch finds a descriptor
    that can be read, and throws a [TypeError] otherwise. *)
Lemma normalized_tool_readable (t f : value) :
  descriptor t = Returned f → is_nullish f = false →
  normalized_tool t = Returned (function_tool (normal_fn_of f)).
Proof.
  intros Hd Hf. rewrite normalized_tool_descriptor, Hd. simpl.
  by rewrite (normalize_function_returns _ Hf).
Qed.

Lemma normalized_tool_returned (t normalized : value) :
  normalized_tool t = Returned normalized →
  ∃ f, descriptor t = Returned f ∧ is_nullish f = false ∧
       normalized = function_tool (normal_fn_of f).
Proof.
  rewrite normalized_tool_descriptor. intros Ht.
  apply bind_returned in Ht as (f & Hd & Ht). exists f. split; [done|].
  destruct (is_nullish f) eqn:Hf.
  - by rewrite (normalize_function_throws _ Hf) in Ht.
  - rewrite (normalize_function_returns _ Hf) in Ht. simpl in Ht.
    by injection Ht as <-.
Qed.

Lemma descriptor_unreadable (t : value) :
  (∀ f, descriptor t = Returned f → is_nullish f = true) ↔
  is_nullish t = true ∨
  (to_boolean (property t "input_schema") = false ∧
   property t "type" = str "function" ∧
   is_nullish (property t "function") = true).
Proof.
  destruct (is_nullish t) eqn:Ht.
  - split; [by left|]. intros _ f. unfold descriptor, get. rewrite Ht.
    simpl. discriminate.
  - rewrite (descriptor_cases _ Ht). split.
    + intros Hall. right.
      destruct (to_boolean (property t "input_schema")) eqn:Hs.
      { specialize (Hall _ eq_refl). congruence. }
      destruct (strict_equal_string (property t "type") "function") eqn:Hty.
      * apply strict_equal_string_eq in Hty. by specialize (Hall _ eq_refl).
      * specialize (Hall _ eq_refl). congruence.
    + intros [?|(Hs & Hty & Hf)]; [done|]. intros f.
      rewrite Hs, Hty. simpl. by intros [= <-].
Qed.

Lemma normalized_tool_threw (t : value) (e : exn) :
  normalized_tool t = Threw e ↔
  (∀ f, descriptor t = Returned f → is_nullish f = true) ∧ e = TypeError.
Proof.
  rewrite normalized_tool_descriptor.
  destruct (is_nullish t) eqn:Ht.
  - unfold descriptor, get. rewrite Ht. simpl. split.
    + intros [= <-]. split; [|done]. intros f. discriminate.
    + by intros [_ ->].
  - rewrite (descriptor_cases _ Ht). simpl.
    set (f := if to_boolean (property t "input_schema") then t else _).
    destruct (is_nullish f) eqn:Hf.
    + rewrite (normalize_function_throws _ Hf). simpl. split.
      * intros [= <-]. split; [|done]. by intros ? [= <-].
      * by intros [_ ->].
    + rewrite (normalize_function_returns _ Hf). simpl. split; [done|].
      intros [Hall _]. specialize (Hall _ eq_refl). congruence.
Qed.

(** *** The normal form read again *)

Lemma property_function_object (p n d : value) :
  property (function_object p n d) "parameters" = p ∧
  property (function_object p n d) "input_schema" = undefined ∧
  property (function_object p n d) "name" = (if to_boolean n then n else undefined) ∧
  property (function_object p n d) "description" =
    (if to_boolean d then d else undefined).
Proof.
  unfold function_object.
  destruct (to_boolean n), (to_boolean d); by repeat split.
Qed.

Lemma descriptor_function_tool (normal_fn : value) :
  descriptor (function_tool normal_fn) = Returned normal_fn.
Proof. reflexivity. Qed.

Lemma to_boolean_copied (v : value) :
  to_boolean (if to_boolean v then v else undefined) = to_boolean v.
Proof. by destruct (to_boolean v) eqn:Hv. Qed.

(** The normal form of a function object: its [parameters] if they are
    truthy, [{ type: 'object' }] in their place if they are not. *)
Lemma normal_fn_of_function_object (p n d : value) :
  normal_fn_of (function_object p n d) =
  function_object (if to_boolean p then p else object_schema) n d.
Proof.
  unfold normal_fn_of.
  destruct (property_function_object p n d) as (-> & -> & -> & ->).
  unfold function_object. rewrite !to_boolean_copied.
  unfold coalesce, or.
  destruct (to_boolean p) eqn:Hp.
  - rewrite (truthy_not_nullish _ Hp).
    by destruct (to_boolean n), (to_boolean d).
  - simpl. by destruct (to_boolean n), (to_boolean d).
Qed.

Lemma function_object_not_nullish (p n d : value) :
  is_nullish (function_object p n d) = false.
Proof. reflexivity. Qed.

(** A second pass over a tool of the first gives the same tool exactly
    when the [parameters] of the first pass are truthy. *)
Lemma normalized_tool_function_object (p n d : value) :
  normalized_tool (function_tool (function_object p n d)) =
  Returned (function_tool
              (function_object (if to_boolean p then p else object_schema) n d)).
Proof.
  rewrite (normalized_tool_readable _ _ (descriptor_function_tool _)
             (function_object_not_nullish _ _ _)).
  by rewrite normal_fn_of_function_object.
Qed.

Lemma normalized_tool_fixed (p n d : value) :
  normalized_tool (function_tool (function_object p n d)) =
    Returned (function_tool (function_object p n d)) ↔
  to_boolean p = true.
Proof.
  rewrite normalized_tool_function_object. split.
  - intros [= Heq].
    destruct (to_boolean p) eqn:Hp; [done|]. by rewrite <- Heq in Hp.
  - by intros ->.
Qed.

Lemma canonical_fixed (t : value) :
  canonical t ↔ normalized_tool t = Returned t.
Proof.
  split.
  - intros (p & n & d & Hp & ->). by apply normalized_tool_fixed.
  - intros Ht. destruct (normalized_tool_returned _ _ Ht) as (f & _ & _ & Heq).
    unfold normal_fn_of in Heq. subst t.
    eexists _, _, _. split; [|reflexivity].
    exact (proj1 (normalized_tool_fixed _ _ _) Ht).
Qed.

(** Outside the accepted shapes: a tool whose [type] is ['function'] and
    that has its properties on itself, not in a [function], makes the
    normalizer throw on reading [fn.parameters] of [undefined]. *)
Lemma normalize_tools_object_no_function :
  descriptor flat_typed = Returned undefined ∧
  normalize_tools_object [flat_typed] = Threw TypeError ∧
  normalize_tools_object [undefined] = Threw TypeError.
Proof. split_and!; reflexivity. Qed.

(** What the two passes have at each index. *)
Lemma normalize_tools_object_lookup (tools normalized : list value) :
  normalize_tools_object tools = Returned normalized →
  length normalized = length tools ∧
  ∀ i t, tools !! i = Some t →
    ∃ f, descriptor t = Returned f ∧ is_nullish f = false ∧
         normalized !! i = Some (function_tool (normal_fn_of f)).
Proof.
  rewrite normalize_tools_object_map. intros Hm.
  destruct (map_returned_lookup _ _ _ Hm) as [Hlen Hlk].
  split; [done|]. intros i t Ht.
  destruct (Hlk _ _ Ht) as (y & Hy & Hn).
  destruct (normalized_tool_returned _ _ Hn) as (f & Hd & Hf & ->). eauto.
Qed.

(** *** The entries of the normal form *)

(** C5 as stated fails on a [parameters] that is there but falsy: the
    descriptor has [parameters: false], and the entry gets
    [{ type: 'object' }] in its place. *)
Lemma normalize_tools_object_falsy_parameters :
  descriptor falsy_parameters = Returned falsy_parameters ∧
  property falsy_parameters "parameters" = boolean false ∧
  normalize_tools_object [falsy_parameters] =
    Returned [object [("type", str "function");
                      ("function", object [("parameters", object [("type", str "object")]);
                                           ("name", str "f")])]] ∧
  ¬ (∃ normal_fn,
       normalize_tools_object [falsy_parameters] = Returned [function_tool normal_fn] ∧
       property normal_fn "parameters" = property falsy_parameters "parameters").
Proof.
  split_and!; try reflexivity.
  intros (normal_fn & Hn & Hp). vm_compute in Hn. injection Hn as <-.
  discriminate Hp.
Qed.

(** C5, as the code has it.  For every tool of the input sequence that
    gives the dispatch a descriptor to read, the normalizer returns, at
    the same index, exactly [{ type: 'function', function: { parameters,
    name?, description? } }]: [parameters] is the descriptor's
    [parameters] if that is truthy, else its [input_schema] if that is
    neither [undefined] nor [null], else [{ type: 'object' }]; [name] and
    [description] are the descriptor's, set exactly when they are truthy,
    and nothing stands in for one that is not set. *)
Theorem normalize_tools_object_entries (tools : list value) :
  Forall (λ t, ∃ f, descriptor t = Returned f ∧ is_nullish f = false) tools →
  ∃ normalized,
    normalize_tools_object tools = Returned normalized ∧
    length normalized = length tools ∧
    ∀ i t, tools !! i = Some t →
      ∃ f,
        descriptor t = Returned f ∧
        normalized !! i =
          Some (object
            [("type", str "function");
             ("function", object (
                [("parameters",
                  if to_boolean (property f "parameters") then property f "parameters"
                  else if is_nullish (property f "input_schema")
                       then object [("type", str "object")]
                       else property f "input_schema")] ++
                (if to_boolean (property f "name")
                 then [("name", property f "name")] else []) ++
                (if to_boolean (property f "description")
                 then [("description", property f "description")] else [])))]).
Proof.
  intros Hdesc.
  destruct (map_all_returned normalized_tool tools) as [normalized Hmap].
  { eapply Forall_impl; [exact Hdesc|]. intros t (f & Hd & Hf).
    rewrite (normalized_tool_readable _ _ Hd Hf). eauto. }
  rewrite <- normalize_tools_object_map in Hmap.
  exists normalized. split; [done|].
  destruct (normalize_tools_object_lookup _ _ Hmap) as [Hlen Hlk].
  split; [done|]. intros i t Ht.
  destruct (Hlk _ _ Ht) as (f & Hd & _ & Hn).
  exists f. split; [done|]. rewrite Hn.
  unfold function_tool, normal_fn_of, function_object.
  rewrite parameters_cases. reflexivity.
Qed.

Lemma normalize_tools_object_entries_witness :
  Forall (λ t, ∃ f, descriptor t = Returned f ∧ is_nullish f = false) sample_tools ∧
  normalize_tools_object sample_tools =
    Returned
      [ object [("type", str "function");
                ("function", object [("parameters", city_schema);
                                     ("name", str "get_weather");
                                     ("description", str "Weather of a city")])];
        object [("type", str "function");
                ("function", object [("parameters", city_schema);
                                     ("name", str "get_time")])];
        object [("type", str "function");
                ("function", object [("parameters", object [("type", str "object")]);
                                     ("name", str "ping");
                                     ("description", str "Ping")])] ].
Proof.
  assert (Forall (λ t, ∃ f, descriptor t = Returned f ∧ is_nullish f = false)
            sample_tools) as Hdesc.
  { repeat constructor; eexists; (split; [reflexivity|reflexivity]). }
  split; [exact Hdesc|].
  destruct (normalize_tools_object_entries sample_tools Hdesc)
    as (normalized & Hn & Hlen & Hentries).
  rewrite Hn. f_equal.
  destruct (Hentries 0 claude_style eq_refl) as (f0 & Hd0 & Hn0).
  destruct (Hentries 1 openai_style eq_refl) as (f1 & Hd1 & Hn1).
  destruct (Hentries 2 bare_style eq_refl) as (f2 & Hd2 & Hn2).
  injection Hd0 as <-. injection Hd1 as <-. injection Hd2 as <-.
  destruct normalized as [|n0 [|n1 [|n2 [|n3 normalized]]]]; try discriminate Hlen.
  simpl in Hn0, Hn1, Hn2.
  injection Hn0 as ->. injection Hn1 as ->. injection Hn2 as ->. reflexivity.
Defined.

(** *** Idempotence *)

Lemma map_cons_returned {A B} (f : A → result B) (x : A) (xs : list A)
    (y : B) (ys : list B) :
  JS.map f (x :: xs) = Returned (y :: ys) ↔
  f x = Returned y ∧ JS.map f xs = Returned ys.
Proof.
  simpl. split.
  - intros Hm. apply bind_returned in Hm as (y' & Hy & Hm).
    apply bind_returned in Hm as (ys' & Hys & [= <- <-]). done.
  - intros [-> ->]. done.
Qed.

(** The [parameters] of the first pass are truthy exactly when
    [parameters || input_schema] is truthy or nullish. *)
Lemma parameters_truthy (p s : value) :
  to_boolean (coalesce (or p s) object_schema) = true ↔
  to_boolean (or p s) = true ∨ is_nullish (or p s) = true.
Proof.
  unfold coalesce. destruct (is_nullish (or p s)) eqn:Hn.
  - split; [by right | done].
  - split; [by left|]. by intros [?|?].
Qed.

Lemma map_normalized_tool_again (tools normalized : list value) :
  JS.map normalized_tool tools = Returned normalized →
  JS.map normalized_tool normalized = Returned normalized ↔
  Forall (λ t, ∀ f, descriptor t = Returned f →
            to_boolean (or (property f "parameters") (property f "input_schema")) = true ∨
            is_nullish (or (property f "parameters") (property f "input_schema")) = true)
         tools.
Proof.
  revert normalized. induction tools as [|t tools IH]; intros normalized Hm.
  - simpl in Hm. injection Hm as <-. split; [constructor | done].
  - simpl in Hm. apply bind_returned in Hm as (y & Hy & Hm).
    apply bind_returned in Hm as (ys & Hys & [= <-]).
    rewrite map_cons_returned, Forall_cons, (IH _ Hys).
    destruct (normalized_tool_returned _ _ Hy) as (f & Hd & _ & ->).
    unfold normal_fn_of. rewrite normalized_tool_fixed, parameters_truthy.
    split.
    + intros [Hp Hall]. split; [|done]. intros f' Hf'. congruence.
    + intros [Hp Hall]. split; [|done]. by apply Hp.
Qed.

(** C6 as stated fails on a descriptor whose [input_schema] is [false]:
    the first pass keeps [false] as the [parameters], the second pass
    puts [{ type: 'object' }] in their place. *)
Lemma normalize_tools_object_not_idempotent :
  normalize_tools_object [falsy_input_schema] =
    Returned [object [("type", str "function");
                      ("function", object [("parameters", boolean false);
                                           ("name", str "f")])]] ∧
  normalize_tools_object
    [object [("type", str "function");
             ("function", object [("parameters", boolean false);
                                  ("name", str "f")])]] =
    Returned [object [("type", str "function");
                      ("function", object [("parameters", object [("type", str "object")]);
                                           ("name", str "f")])]] ∧
  ¬ (∀ normalized,
       normalize_tools_object [falsy_input_schema] = Returned normalized →
       normalize_tools_object normalized = Returned normalized).
Proof.
  split_and!; try reflexivity.
  intros Hall. specialize (Hall _ eq_refl). discriminate Hall.
Qed.

(** C6, as the code has it.  Normalising the sequence that a
    normalisation returned returns that same sequence if and only if no
    descriptor of the input has, as [parameters || input_schema], a
    falsy value other than [undefined] and [null]; so it does for every
    sequence whose [parameters] and [input_schema] are objects where
    they are there. *)
Theorem normalize_tools_object_idempotent (tools normalized : list value) :
  normalize_tools_object tools = Returned normalized →
  normalize_tools_object normalized = Returned normalized ↔
  Forall (λ t, ∀ f, descriptor t = Returned f →
            to_boolean (or (property f "parameters") (property f "input_schema")) = true ∨
            is_nullish (or (property f "parameters") (property f "input_schema")) = true)
         tools.
Proof.
  rewrite !normalize_tools_object_map. apply map_normalized_tool_again.
Qed.

Lemma normalize_tools_object_idempotent_witness :
  normalize_tools_object sample_tools =
    Returned (function_tool <$>
              [ function_object city_schema (str "get_weather") (str "Weather of a city");
                function_object city_schema (str "get_time") undefined;
                function_object (object [("type", str "object")]) (str "ping") (str "Ping") ]) ∧
  normalize_tools_object
    (function_tool <$>
       [ function_object city_schema (str "get_weather") (str "Weather of a city");
         function_object city_schema (str "get_time") undefined;
         function_object (object [("type", str "object")]) (str "ping") (str "Ping") ]) =
    Returned (function_tool <$>
              [ function_object city_schema (str "get_weather") (str "Weather of a city");
                function_object city_schema (str "get_time") undefined;
                function_object (object [("type", str "object")]) (str "ping") (str "Ping") ]).
Proof.
  split; [reflexivity|].
  apply (normalize_tools_object_idempotent sample_tools); [reflexivity|].
  unfold sample_tools.
  repeat (apply Forall_cons; split); [| | |by apply Forall_nil];
    intros f [= <-]; [by left | by left | by right].
Defined.

(** *** The Claude shape of the normal form *)

Lemma to_claude_function_tool (normal_fn : value) :
  is_nullish normal_fn = false →
  (function ← get (function_tool normal_fn) "function";
   name ← get function "name";
   description ← get function "description";
   parameters ← get function "parameters";
   Returned (object [("name", name); ("description", description);
                     ("input_schema", parameters)])) =
  Returned (claude_shape (property normal_fn "name")
                         (property normal_fn "description")
                         (property normal_fn "parameters")).
Proof.
  intros Hn. unfold get. simpl. by rewrite Hn.
Qed.

Lemma normal_fn_of_not_nullish (f : value) : is_nullish (normal_fn_of f) = false.
Proof. reflexivity. Qed.

Lemma property_normal_fn_of (f : value) :
  property (normal_fn_of f) "name" =
    (if to_boolean (property f "name") then property f "name" else undefined) ∧
  property (normal_fn_of f) "description" =
    (if to_boolean (property f "description") then property f "description"
     else undefined) ∧
  property (normal_fn_of f) "parameters" =
    (if to_boolean (property f "parameters") then property f "parameters"
     else if is_nullish (property f "input_schema")
                       then object [("type", str "object")]
                       else property f "input_schema").
Proof.
  unfold normal_fn_of.
  destruct (property_function_object
              (coalesce (or (property f "parameters") (property f "input_schema"))
                        object_schema)
              (property f "name") (property f "description")) as (-> & _ & -> & ->).
  rewrite parameters_cases. split_and!; reflexivity.
Qed.

(** C7, as the code has it.  For every tool sequence that the normalizer
    accepts, [make_claude_tools] of the normalised sequence maps each
    canonical entry, in order, to [{ name, description, input_schema:
    parameters }]: the [input_schema] is the descriptor's [parameters] if
    that is truthy, else its [input_schema], else [{ type: 'object' }];
    the [name] and the [description] are the descriptor's when that is
    truthy (a non-empty string), and are [undefined] otherwise.  On a
    falsy argument [make_claude_tools] returns [undefined]. *)
Theorem make_claude_tools_normalized (tools normalized : list value) :
  normalize_tools_object tools = Returned normalized →
  make_claude_tools None = Returned None ∧
  ∃ claude_tools,
    make_claude_tools (Some normalized) = Returned (Some claude_tools) ∧
    length claude_tools = length tools ∧
    ∀ i t, tools !! i = Some t →
      ∃ f normal_fn,
        descriptor t = Returned f ∧
        normalized !! i =
          Some (object [("type", str "function"); ("function", normal_fn)]) ∧
        claude_tools !! i =
          Some (object [("name", property normal_fn "name");
                        ("description", property normal_fn "description");
                        ("input_schema", property normal_fn "parameters")]) ∧
        property normal_fn "name" =
          (if to_boolean (property f "name") then property f "name" else undefined) ∧
        property normal_fn "description" =
          (if to_boolean (property f "description") then property f "description"
           else undefined) ∧
        property normal_fn "parameters" =
          (if to_boolean (property f "parameters") then property f "parameters"
           else if is_nullish (property f "input_schema")
                       then object [("type", str "object")]
                       else property f "input_schema").
Proof.
  intros Hn. split; [done|].
  destruct (normalize_tools_object_lookup _ _ Hn) as [Hlen Hlk].
  set (to_claude := λ tool : value,
    function ← get tool "function";
    name ← get function "name";
    description ← get function "description";
    parameters ← get function "parameters";
    Returned (object [("name", name); ("description", description);
                      ("input_schema", parameters)])).
  destruct (map_all_returned to_claude normalized) as [claude_tools Hc].
  { apply Forall_lookup_2. intros i nt Hnt.
    assert (is_Some (tools !! i)) as [t Ht].
    { apply lookup_lt_is_Some. rewrite <- Hlen. by eapply lookup_lt_Some. }
    destruct (Hlk i t Ht) as (f & _ & _ & Hy).
    assert (nt = function_tool (normal_fn_of f)) as -> by congruence.
    unfold to_claude.
    rewrite (to_claude_function_tool _ (normal_fn_of_not_nullish f)). eauto. }
  exists claude_tools. unfold make_claude_tools. fold to_claude. rewrite Hc.
  split; [done|].
  destruct (map_returned_lookup _ _ _ Hc) as [Hlen' Hlk'].
  split; [congruence|]. intros i t Ht.
  destruct (Hlk i t Ht) as (f & Hd & _ & Hy).
  destruct (Hlk' i _ Hy) as (c & Hcl & Hto).
  unfold to_claude in Hto.
  rewrite (to_claude_function_tool _ (normal_fn_of_not_nullish f)) in Hto.
  injection Hto as <-.
  exists f, (normal_fn_of f).
  destruct (property_normal_fn_of f) as (Hname & Hdescription & Hparameters).
  by rewrite Hy, Hcl.
Qed.

Lemma make_claude_tools_normalized_witness :
  normalize_tools_object [claude_style; bare_style] =
    Returned [function_tool (normal_fn_of claude_style);
              function_tool (normal_fn_of bare_style)] ∧
  make_claude_tools (Some [function_tool (normal_fn_of claude_style);
                           function_tool (normal_fn_of bare_style)]) =
    Returned (Some
      [ object [("name", str "get_weather");
                ("description", str "Weather of a city");
                ("input_schema", city_schema)];
        object [("name", str "ping");
                ("description", str "Ping");
                ("input_schema", object [("type", str "object")])] ]).
Proof.
  split; [reflexivity|].
  destruct (make_claude_tools_normalized [claude_style; bare_style]
              [function_tool (normal_fn_of claude_style);
               function_tool (normal_fn_of bare_style)] eq_refl)
    as (_ & claude_tools & Hc & Hlen & Hentries).
  rewrite Hc. do 2 f_equal.
  destruct (Hentries 0 claude_style eq_refl)
    as (f0 & n0 & Hd0 & Hn0 & Hc0 & Hname0 & Hdesc0 & Hpar0).
  destruct (Hentries 1 bare_style eq_refl)
    as (f1 & n1 & Hd1 & Hn1 & Hc1 & Hname1 & Hdesc1 & Hpar1).
  injection Hd0 as <-. injection Hd1 as <-.
  rewrite Hname0, Hdesc0, Hpar0 in Hc0. rewrite Hname1, Hdesc1, Hpar1 in Hc1.
  destruct claude_tools as [|c0 [|c1 [|c2 claude_tools]]]; try discriminate Hlen.
  simpl in Hc0, Hc1. injection Hc0 as ->. injection Hc1 as ->. reflexivity.
Defined.

(** C7 as stated fails on a name that is the empty string: the tool has
    the name [""], the Claude shape of its normal form has no name. *)
Lemma make_claude_tools_loses_empty_name :
  property unnamed_style "name" = str "" ∧
  descriptor unnamed_style = Returned unnamed_style ∧
  ∃ normalized,
    normalize_tools_object [unnamed_style] = Returned normalized ∧
    make_claude_tools (Some normalized) =
      Returned (Some [object [("name", undefined);
                              ("description", undefined);
                              ("input_schema", city_schema)]]) ∧
    ¬ (∀ c, make_claude_tools (Some normalized) = Returned (Some [c]) →
            property c "name" = property unnamed_style "name").
Proof.
  split; [reflexivity|]. split; [reflexivity|].
  eexists. split; [reflexivity|]. split; [reflexivity|].
  intros Hall. specialize (Hall _ eq_refl). discriminate.
Qed.

(** *** Further properties of the tool functions *)

(** X1.  The normalizer treats each tool on its own: its result is the
    map of the loop body over the sequence.  It throws, and then a
    [TypeError], exactly when some tool is [undefined] or [null], or has
    the [type] ['function'] but neither a truthy [input_schema] of its
    own nor a [function]; otherwise it returns a sequence of the same
    length. *)
Theorem normalize_tools_object_throws (tools : list value) :
  normalize_tools_object tools = JS.map normalized_tool tools ∧
  (normalize_tools_object tools = Threw TypeError ↔
   Exists (λ t, is_nullish t = true ∨
                (to_boolean (property t "input_schema") = false ∧
                 property t "type" = str "function" ∧
                 is_nullish (property t "function") = true)) tools) ∧
  (∀ e, normalize_tools_object tools = Threw e → e = TypeError) ∧
  ((∃ normalized, normalize_tools_object tools = Returned normalized ∧
                  length normalized = length tools) ↔
   Forall (λ t, ¬ (is_nullish t = true ∨
                   (to_boolean (property t "input_schema") = false ∧
                    property t "type" = str "function" ∧
                    is_nullish (property t "function") = true))) tools).
Proof.
  rewrite normalize_tools_object_map. split; [done|].
  assert (∀ e, JS.map normalized_tool tools = Threw e → e = TypeError) as Hexn.
  { intros e He. apply map_threw in He as (t & _ & Ht).
    by apply normalized_tool_threw in Ht as [_ ->]. }
  assert (∀ t, (∃ y, normalized_tool t = Returned y) ↔
               ¬ (is_nullish t = true ∨
                  (to_boolean (property t "input_schema") = false ∧
                   property t "type" = str "function" ∧
                   is_nullish (property t "function") = true))) as Hone.
  { intros t. rewrite <- descriptor_unreadable. split.
    - intros [y Hy] Hall.
      destruct (normalized_tool_returned _ _ Hy) as (f & Hd & Hf & _).
      specialize (Hall _ Hd). congruence.
    - intros Hn. destruct (normalized_tool t) as [y|e] eqn:Ht; [eauto|].
      destruct Hn. by apply normalized_tool_threw in Ht as [? _]. }
  assert ((∃ normalized, JS.map normalized_tool tools = Returned normalized ∧
                         length normalized = length tools) ↔
          Forall (λ t, ¬ (is_nullish t = true ∨
                   (to_boolean (property t "input_schema") = false ∧
                    property t "type" = str "function" ∧
                    is_nullish (property t "function") = true))) tools) as Hok.
  { split.
    - intros (ys & Hys & _). apply map_returned_all in Hys.
      eapply Forall_impl; [exact Hys|]. intros t. apply Hone.
    - intros Hall. destruct (map_all_returned normalized_tool tools) as [ys Hys].
      + eapply Forall_impl; [exact Hall|]. intros t. apply Hone.
      + exists ys. split; [done|]. by apply map_returned_lookup in Hys as [? _]. }
  split_and!; [|done|done].
  split.
  - intros He. apply map_threw in He as (t & Hin & Ht).
    apply normalized_tool_threw in Ht as [Hd _]. apply descriptor_unreadable in Hd.
    apply Exists_exists. eauto.
  - intros Hex. destruct (JS.map normalized_tool tools) as [ys|e] eqn:Hm.
    + assert (Forall (λ t, ¬ (is_nullish t = true ∨
                   (to_boolean (property t "input_schema") = false ∧
                    property t "type" = str "function" ∧
                    is_nullish (property t "function") = true))) tools) as Hall.
      { apply Hok. exists ys. split; [done|].
        by apply map_returned_lookup in Hm as [? _]. }
      apply Exists_exists in Hex as (t & Hin & Ht).
      rewrite Forall_forall in Hall. by destruct (Hall _ Hin).
    + by rewrite (Hexn e eq_refl).
Qed.

Lemma canonical_keys (function_fields : list (string * value)) (k : string) (v : value) :
  canonical (object [("type", str "function"); ("function", object function_fields)]) →
  (k, v) ∈ function_fields →
  k = "parameters" ∨ k = "name" ∨ k = "description".
Proof.
  intros (p & n & d & _ & Heq). unfold function_tool, function_object in Heq.
  injection Heq as ->. intros Hin.
  apply elem_of_cons in Hin as [[= -> _]|Hin]; [by left|].
  apply elem_of_app in Hin as [Hin|Hin].
  - destruct (to_boolean n); [|by apply elem_of_nil in Hin].
    apply list_elem_of_singleton in Hin as [= -> _]. right. by left.
  - destruct (to_boolean d); [|by apply elem_of_nil in Hin].
    apply list_elem_of_singleton in Hin as [= -> _]. right. by right.
Qed.

(** X2.  The fixed points of the normalizer are exactly the tools in the
    normal form.  Every tool it returns is [{ type: 'function', function }]
    with a [function] that holds [parameters], neither [undefined] nor
    [null], then a truthy [name] and a truthy [description] if any, and
    no other property.  It returns a sequence unchanged if and only if
    every tool of the sequence is of that form with truthy [parameters];
    so a tool whose [function] has any further property is not returned
    unchanged: the normalizer drops that property. *)
Theorem normalize_tools_object_canonical (tools : list value) :
  (∀ normalized, normalize_tools_object tools = Returned normalized →
     Forall (λ t, ∃ parameters name description,
               is_nullish parameters = false ∧
               t = function_tool (function_object parameters name description))
            normalized) ∧
  (normalize_tools_object tools = Returned tools ↔ Forall canonical tools) ∧
  (∀ function_fields k v,
     (k, v) ∈ function_fields →
     k ≠ "parameters" → k ≠ "name" → k ≠ "description" →
     object [("type", str "function"); ("function", object function_fields)] ∈ tools →
     normalize_tools_object tools ≠ Returned tools).
Proof.
  assert (normalize_tools_object tools = Returned tools ↔ Forall canonical tools)
    as Hfixed.
  { rewrite normalize_tools_object_map.
    induction tools as [|t tools IH].
    - split; [constructor | done].
    - rewrite map_cons_returned, Forall_cons, IH. by rewrite canonical_fixed. }
  split_and!.
  - intros normalized Hn.
    destruct (normalize_tools_object_lookup _ _ Hn) as [Hlen Hlk].
    apply Forall_lookup_2. intros i y Hy.
    assert (is_Some (tools !! i)) as [t Ht].
    { apply lookup_lt_is_Some. rewrite <- Hlen. by eapply lookup_lt_Some. }
    destruct (Hlk _ _ Ht) as (f & _ & _ & Hy').
    assert (y = function_tool (normal_fn_of f)) as -> by congruence.
    eexists _, _, _. split; [|reflexivity].
    unfold coalesce.
    by destruct (is_nullish (or (property f "parameters") (property f "input_schema")))
      eqn:Hnull.
  - exact Hfixed.
  - intros function_fields k v Hin Hp Hn Hd Ht Hsame.
    apply Hfixed in Hsame. rewrite Forall_forall in Hsame.
    destruct (canonical_keys _ _ _ (Hsame _ Ht) Hin) as [?|[?|?]]; done.
Qed.

(** X3.  [make_claude_tools] reads [tool.function] of every tool: it
    returns, one entry per tool, exactly when every tool has a
    [function] that is neither [undefined] nor [null], and throws a
    [TypeError] otherwise, as it does on tools that were not normalised
    first. *)
Theorem make_claude_tools_throws (tools : list value) :
  ((∃ claude_tools, make_claude_tools (Some tools) = Returned (Some claude_tools) ∧
                    length claude_tools = length tools) ↔
   Forall (λ t, is_nullish t = false ∧ is_nullish (property t "function") = false)
          tools) ∧
  (make_claude_tools (Some tools) = Threw TypeError ↔
   Exists (λ t, is_nullish t = true ∨ is_nullish (property t "function") = true)
          tools).
Proof.
  unfold make_claude_tools.
  set (to_claude := λ tool : value,
    function ← get tool "function";
    name ← get function "name";
    description ← get function "description";
    parameters ← get function "parameters";
    Returned (object [("name", name); ("description", description);
                      ("input_schema", parameters)])).
  assert (∀ t, (∃ c, to_claude t = Returned c) ↔
               is_nullish t = false ∧ is_nullish (property t "function") = false)
    as Hone.
  { intros t. unfold to_claude, get.
    destruct (is_nullish t); simpl.
    - split; [by intros [? ?] | by intros [? _]].
    - destruct (is_nullish (property t "function")); simpl.
      + split; [by intros [? ?] | by intros [_ ?]].
      + split; eauto. }
  assert (∀ t e, to_claude t = Threw e → e = TypeError) as Hexn.
  { intros t e. unfold to_claude, get.
    destruct (is_nullish t); simpl; [by intros [= <-]|].
    destruct (is_nullish (property t "function")); simpl; [by intros [= <-]|done]. }
  assert (Forall (λ t, is_nullish t = false ∧
                       is_nullish (property t "function") = false) tools ↔
          ∃ cs, JS.map to_claude tools = Returned cs) as Hall.
  { split.
    - intros Hf. apply map_all_returned.
      eapply Forall_impl; [exact Hf|]. intros t. by apply Hone.
    - intros [cs Hcs]. apply map_returned_all in Hcs.
      eapply Forall_impl; [exact Hcs|]. intros t. by apply Hone. }
  split.
  - rewrite Hall. split.
    + intros (cs & Hcs & _).
      destruct (JS.map to_claude tools) as [cs'|]; simpl in *; [eauto|done].
    + intros [cs Hcs]. exists cs. rewrite Hcs. split; [done|].
      by apply map_returned_lookup in Hcs as [? _].
  - split.
    + intros Hthrow. destruct (JS.map to_claude tools) as [cs|e] eqn:Hm; [done|].
      apply map_threw in Hm as (t & Hin & Ht). apply Exists_exists.
      exists t. split; [done|].
      destruct (is_nullish t) eqn:Hnt; [by left|right].
      destruct (is_nullish (property t "function")) eqn:Hnf; [done|].
      assert (∃ c, to_claude t = Returned c) as [c Hc] by by apply Hone.
      congruence.
    + intros Hex. destruct (JS.map to_claude tools) as [cs|e] eqn:Hm; simpl.
      * apply Exists_exists in Hex as (t & Hin & Ht).
        assert (Forall (λ t, is_nullish t = false ∧
                             is_nullish (property t "function") = false) tools)
          as Hf by (apply Hall; eauto).
        rewrite Forall_forall in Hf. destruct (Hf _ Hin) as [? ?].
        destruct Ht; congruence.
      * apply map_threw in Hm as (t & _ & Ht). by rewrite (Hexn _ _ Ht).
Qed.

Lemma map_of_fmap {A B C} (f : B → result C) (g : A → B) (xs : list A) :
  JS.map f (g <$> xs) = JS.map (f ∘ g) xs.
Proof.
  induction xs as [|x xs IH]; [done|].
  cbn [fmap list_fmap JS.map]. fold (@fmap list _ _ _ g xs). by rewrite IH.
Qed.

Lemma copied_or_undefined (v : value) :
  to_boolean v = true ∨ v = undefined →
  (if to_boolean v then v else undefined) = v.
Proof. intros [->| ->]; done. Qed.

Lemma claude_round_trip_one (t : value) :
  to_boolean (property t "input_schema") = true →
  to_boolean (property t "parameters") = false →
  normalized_tool t =
  Returned (function_tool
    (function_object (property t "input_schema")
                     (property t "name") (property t "description"))).
Proof.
  intros Hs Hp.
  assert (is_nullish t = false) as Ht by (by destruct t).
  rewrite (normalized_tool_readable t t).
  - unfold normal_fn_of, coalesce, or. rewrite Hp.
    by rewrite (truthy_not_nullish _ Hs).
  - by rewrite (descriptor_cases _ Ht), Hs.
  - done.
Qed.

(** X4.  Round trip through the normal form.  For tools that have a
    truthy [input_schema], no truthy [parameters] beside it, and a
    [name] and a [description] that are truthy or [undefined],
    [make_claude_tools] of the normal form gives, tool by tool, the
    [name], the [description] and the [input_schema] of the tool; so
    tools that are given in Claude's shape [{ name, description,
    input_schema }] come back as they were. *)
Theorem claude_round_trip (tools : list value) :
  Forall (λ t, to_boolean (property t "input_schema") = true ∧
               to_boolean (property t "parameters") = false ∧
               (to_boolean (property t "name") = true ∨
                property t "name" = undefined) ∧
               (to_boolean (property t "description") = true ∨
                property t "description" = undefined))
         tools →
  ∃ normalized,
    normalize_tools_object tools = Returned normalized ∧
    make_claude_tools (Some normalized) =
      Returned (Some ((λ t, object [("name", property t "name");
                                    ("description", property t "description");
                                    ("input_schema", property t "input_schema")])
                      <$> tools)) ∧
    (Forall (λ t, ∃ name description input_schema,
               t = object [("name", name); ("description", description);
                           ("input_schema", input_schema)]) tools →
     make_claude_tools (Some normalized) = Returned (Some tools)).
Proof.
  intros Hall. rewrite normalize_tools_object_map.
  set (normal := λ t, function_tool
    (function_object (property t "input_schema")
                     (property t "name") (property t "description"))).
  set (shape := λ t, object [("name", property t "name");
                             ("description", property t "description");
                             ("input_schema", property t "input_schema")]).
  exists (normal <$> tools).
  assert (make_claude_tools (Some (normal <$> tools)) =
          Returned (Some (shape <$> tools))) as Hclaude.
  { unfold make_claude_tools. rewrite map_of_fmap, (map_fmap _ shape); [done|].
    eapply Forall_impl; [exact Hall|]. intros t (Hs & _ & Hn & Hd).
    unfold compose, normal.
    rewrite (to_claude_function_tool _ (function_object_not_nullish _ _ _)).
    destruct (property_function_object (property t "input_schema")
                (property t "name") (property t "description"))
      as (-> & _ & -> & ->).
    unfold claude_shape, shape.
    by rewrite (copied_or_undefined _ Hn), (copied_or_undefined _ Hd). }
  split_and!.
  - apply map_fmap. eapply Forall_impl; [exact Hall|].
    intros t (Hs & Hp & _). by apply claude_round_trip_one.
  - exact Hclaude.
  - intros Hshape. rewrite Hclaude. do 2 f_equal.
    clear Hclaude Hall. induction Hshape as [|t tools (n & d & s & ->) _ IH]; [done|].
    cbn [fmap list_fmap]. f_equal. exact IH.
Qed.

Lemma claude_round_trip_witness :
  make_claude_tools
    (Some [function_tool (function_object city_schema (str "get_weather")
                                          (str "Weather of a city"));
           function_tool (function_object (object [("type", str "object")])
                                          (str "now") undefined)]) =
  Returned (Some sample_claude_tools).
Proof.
  assert (Forall (λ t, to_boolean (property t "input_schema") = true ∧
               to_boolean (property t "parameters") = false ∧
               (to_boolean (property t "name") = true ∨
                property t "name" = undefined) ∧
               (to_boolean (property t "description") = true ∨
                property t "description" = undefined))
         sample_claude_tools) as Hall.
  { unfold sample_claude_tools.
    repeat (apply Forall_cons; split); [| |by apply Forall_nil];
      (split_and!; [reflexivity | reflexivity | by left | ]);
      [by left | by right]. }
  destruct (claude_round_trip sample_claude_tools Hall)
    as (normalized & Hnorm & _ & Hback).
  injection Hnorm as <-. apply Hback.
  unfold sample_claude_tools.
  repeat (apply Forall_cons; split); [| |by apply Forall_nil];
    unfold claude_shape; eauto.
Defined.

End FunctionCallingFacts.

(** ** The Claude service *)

Module ClaudeServiceFacts.
Import JS ClaudeService.

(** *** The message loop *)

Lemma alter_insert {A} (f : A → A) (l : list A) (i : nat) (x : A) :
  l !! i = Some x → alter f i l = <[i := f x]> l.
Proof.
  revert i. induction l as [|y l IH]; intros [|i] Hi; simpl in *; try done.
  - by injection Hi as ->.
  - f_equal. by apply IH.
Qed.

Lemma set_content_insert (m : loc) (c : value) (h : heap) (msg : message) :
  objects h !! m = Some msg →
  set_content m c h =
  {| objects := <[m := {| role := role msg; content := c |}]> (objects h);
     arrays := arrays h |}.
Proof. intros Hm. unfold set_content. by rewrite (alter_insert _ _ _ _ Hm). Qed.

Lemma set_role_insert (m : loc) (r : string) (h : heap) (msg : message) :
  objects h !! m = Some msg →
  set_role m r h =
  {| objects := <[m := {| role := Some r; content := content msg |}]> (objects h);
     arrays := arrays h |}.
Proof. intros Hm. unfold set_role. by rewrite (alter_insert _ _ _ _ Hm). Qed.

(** A heap in which the object at [m] is [x]. *)
Lemma heap_with (m : loc) (h : heap) (x : message) :
  objects h !! m = Some x →
  h = {| objects := <[m := x]> (objects h); arrays := arrays h |}.
Proof. intros Hm. rewrite list_insert_id by done. by destruct h. Qed.

Lemma alter_insert_eq {A} (f : A → A) (l : list A) (i : nat) (x : A) :
  i < length l → alter f i (<[i := x]> l) = <[i := f x]> l.
Proof.
  intros Hi. rewrite (alter_insert f _ i x) by by apply list_lookup_insert_eq.
  by rewrite list_insert_insert_eq.
Qed.

Lemma prepare_message_insert (m : loc) (objs : list message) (x : message)
    (arrs : list (list value)) :
  m < length objs →
  prepare_message m {| objects := <[m := x]> objs; arrays := arrs |} =
  Returned
    match content x with
    | array a =>
        {| objects := <[m := {| role := default_role (role x); content := array a |}]> objs;
           arrays := arrs |}
    | _ =>
        {| objects := <[m := {| role := default_role (role x);
                                content := array (length arrs) |}]> objs;
           arrays := arrs ++ [parts {| objects := objs; arrays := arrs |} x] |}
    end.
Proof.
  intros Hm. unfold prepare_message, default_role.
  destruct x as [r c].
  destruct c as [| |b|n|text|a|fields], (truthy r) eqn:Hr; simpl;
    repeat (rewrite ?alter_insert_eq, ?list_lookup_alter_eq,
              ?list_lookup_insert_eq by done; simpl; rewrite ?Hr; simpl).
  all: unfold set_role, set_content; simpl;
       by rewrite ?alter_insert_eq, ?length_insert by (rewrite ?length_insert; done).
Qed.

Lemma prepare_message_returns (m : loc) (h : heap) (msg : message) :
  objects h !! m = Some msg →
  ∃ a arrays',
    prepare_message m h =
      Returned {| objects := <[m := {| role := default_role (role msg);
                                       content := array a |}]> (objects h);
                  arrays := arrays' |} ∧
    ((content msg = array a ∧ arrays' = arrays h) ∨
     (¬ is_array (content msg) ∧ a = length (arrays h) ∧
      arrays' = arrays h ++ [parts h msg])).
Proof.
  intros Hm. pose proof (lookup_lt_Some _ _ _ Hm) as Hlt.
  pose proof (prepare_message_insert m (objects h) msg (arrays h) Hlt) as Hp.
  rewrite <- (heap_with _ _ _ Hm) in Hp. rewrite Hp.
  replace {| objects := objects h; arrays := arrays h |} with h by by destruct h.
  destruct (content msg) as [| |b|n|text|a|fields] eqn:Hc.
  6: { exists a, (arrays h). split; [done|]. by left. }
  all: do 2 eexists; (split; [reflexivity|]); right;
       (split; [intros [? ?]; congruence|done]).
Qed.

(** What a turn that returns has done, by its three ways out: the merge
    onto the last placed message, the system message, the new entry. *)
Lemma message_turn_returned (s s' : loop_state) (m : loc) :
  message_turn s m = Returned s' →
  ∃ msg a arrays1,
    objects (store s) !! m = Some msg ∧
    ((content msg = array a ∧ arrays1 = arrays (store s)) ∨
     (¬ is_array (content msg) ∧ a = length (arrays (store s)) ∧
      arrays1 = arrays (store s) ++ [parts (store s) msg])) ∧
    objects (store s') =
      <[m := {| role := default_role (role msg); content := array a |}]>
        (objects (store s)) ∧
    ((default_role (role msg) = Some "user" ∧ previous_was_user s = true ∧
      ∃ l last_msg al old pushed,
        last (adapted_messages s) = Some l ∧
        objects (store s') !! l = Some last_msg ∧
        content last_msg = array al ∧
        arrays1 !! a = Some pushed ∧
        arrays1 !! al = Some old ∧
        arrays (store s') = <[al := old ++ pushed]> arrays1 ∧
        adapted_messages s' = adapted_messages s ∧
        system_prompts s' = system_prompts s ∧
        previous_was_user s' = previous_was_user s)
     ∨
     (default_role (role msg) = Some "system" ∧
      ∃ parts,
        arrays1 !! a = Some parts ∧
        arrays (store s') = arrays1 ∧
        adapted_messages s' = adapted_messages s ∧
        system_prompts s' = system_prompts s ++ parts ∧
        previous_was_user s' = previous_was_user s)
     ∨
     (default_role (role msg) ≠ Some "system" ∧
      (default_role (role msg) = Some "user" → previous_was_user s = false) ∧
      arrays (store s') = arrays1 ∧
      adapted_messages s' = adapted_messages s ++ [m] ∧
      system_prompts s' = system_prompts s ∧
      previous_was_user s' =
        (if bool_decide (default_role (role msg) = Some "user") then true
         else previous_was_user s))).
Proof.
  unfold message_turn. intros Hturn.
  destruct (objects (store s) !! m) as [msg|] eqn:Hm.
  2: { unfold prepare_message in Hturn. by rewrite Hm in Hturn. }
  pose proof (lookup_lt_Some _ _ _ Hm) as Hlt.
  destruct (prepare_message_returns _ _ _ Hm) as (a & arrays1 & Hprep & Harr).
  rewrite Hprep in Hturn. simpl in Hturn.
  rewrite list_lookup_insert_eq in Hturn by done. simpl in Hturn.
  exists msg, a, arrays1. split; [done|]. split; [done|].
  destruct (bool_decide (default_role (role msg) = Some "user")) eqn:Huser;
    [apply bool_decide_eq_true in Huser | apply bool_decide_eq_false in Huser].
  - destruct (previous_was_user s) eqn:Hprev; simpl in Hturn.
    + destruct (last (adapted_messages s)) as [l|] eqn:Hlast; [|done].
      simpl in Hturn.
      destruct (<[m:=_]> (objects (store s)) !! l) as [last_msg|] eqn:Hl; [|done].
      simpl in Hturn.
      destruct (arrays1 !! a) as [pushed|] eqn:Ha; [|done]. simpl in Hturn.
      destruct (content last_msg) as [| | | | |al|] eqn:Hal; try done.
      simpl in Hturn.
      destruct (arrays1 !! al) as [old|] eqn:Hold; [|done]. simpl in Hturn.
      injection Hturn as <-. simpl. split; [done|]. left.
      split; [done|]. split; [done|].
      by exists l, last_msg, al, old, pushed.
    + rewrite bool_decide_eq_false_2 in Hturn by (rewrite Huser; done).
      injection Hturn as <-. simpl. split; [done|]. right. right.
      rewrite Huser. rewrite ?bool_decide_eq_true_2 by done. done.
  - simpl in Hturn.
    destruct (bool_decide (default_role (role msg) = Some "system")) eqn:Hsys;
      [apply bool_decide_eq_true in Hsys | apply bool_decide_eq_false in Hsys].
    + destruct (arrays1 !! a) as [parts|] eqn:Ha; [|done]. simpl in Hturn.
      injection Hturn as <-. simpl. split; [done|]. right. left.
      split; [done|]. by exists parts.
    + injection Hturn as <-. simpl. split; [done|]. right. right.
      rewrite ?bool_decide_eq_false_2 by done. done.
Qed.

(** **** Arrays only grow *)

Lemma grows_refl (arrs : list (list value)) : grows arrs arrs.
Proof. intros a l Ha. exists []. by rewrite app_nil_r. Qed.

Lemma grows_trans (arrs1 arrs2 arrs3 : list (list value)) :
  grows arrs1 arrs2 → grows arrs2 arrs3 → grows arrs1 arrs3.
Proof.
  intros H12 H23 a l Ha.
  destruct (H12 _ _ Ha) as (p1 & H1). destruct (H23 _ _ H1) as (p2 & H2).
  exists (p1 ++ p2). by rewrite app_assoc.
Qed.

Lemma grows_app (arrs more : list (list value)) : grows arrs (arrs ++ more).
Proof.
  intros a l Ha. exists []. rewrite app_nil_r. by apply lookup_app_l_Some.
Qed.

Lemma grows_insert (arrs : list (list value)) (a : loc) (old vs : list value) :
  arrs !! a = Some old → grows arrs (<[a := old ++ vs]> arrs).
Proof.
  intros Hold b l Hb. destruct (decide (a = b)) as [<-|Hne].
  - exists vs. rewrite list_lookup_insert_eq by by eapply lookup_lt_Some.
    congruence.
  - exists []. by rewrite list_lookup_insert_ne, app_nil_r.
Qed.

Lemma grows_length (arrs arrs' : list (list value)) :
  grows arrs arrs' → length arrs ≤ length arrs'.
Proof.
  intros Hg. destruct (decide (length arrs ≤ length arrs')) as [|Hlt]; [done|].
  assert (is_Some (arrs !! length arrs')) as [l Hl]
    by (apply lookup_lt_is_Some; lia).
  destruct (Hg _ _ Hl) as (p & Hp). apply lookup_lt_Some in Hp. lia.
Qed.

Lemma grows_parts (h h' : heap) (msg : message) :
  grows (arrays h) (arrays h') → parts h msg `prefix_of` parts h' msg.
Proof.
  intros Hg. unfold parts. destruct (content msg); try done.
  destruct (arrays h !! a) as [l|] eqn:Ha; simpl; [|apply prefix_nil].
  destruct (Hg _ _ Ha) as (p & ->). simpl. by apply prefix_app_r.
Qed.

Lemma truthy_default_role (r : option string) : truthy (default_role r) = true.
Proof. unfold default_role. by destruct (truthy r) eqn:Hr. Qed.

Lemma default_role_truthy (r : option string) :
  truthy r = true → default_role r = r.
Proof. unfold default_role. by intros ->. Qed.

Lemma default_role_idempotent (r : option string) :
  default_role (default_role r) = default_role r.
Proof. apply default_role_truthy, truthy_default_role. Qed.

Lemma default_role_system (r : option string) :
  default_role r = Some "system" ↔ r = Some "system".
Proof.
  unfold default_role. destruct (truthy r) eqn:Hr; [done|].
  split; [done|]. by intros ->.
Qed.

(** What a turn leaves in the heap, whichever way it went out. *)
Lemma message_turn_heap (s s' : loop_state) (m : loc) :
  message_turn s m = Returned s' →
  ∃ msg a,
    objects (store s) !! m = Some msg ∧
    objects (store s') =
      <[m := {| role := default_role (role msg); content := array a |}]>
        (objects (store s)) ∧
    (∀ a0, content msg = array a0 → a = a0) ∧
    (¬ is_array (content msg) → a < length (arrays (store s'))) ∧
    grows (arrays (store s)) (arrays (store s')) ∧
    parts (store s) msg `prefix_of` default [] (arrays (store s') !! a).
Proof.
  intros Hturn.
  destruct (message_turn_returned _ _ _ Hturn)
    as (msg & a & arrays1 & Hm & Hprep & Hobjs & Hcases).
  exists msg, a. split; [done|]. split; [done|].
  assert (grows (arrays (store s)) arrays1) as Hg1.
  { destruct Hprep as [[_ ->]|(_ & _ & ->)]; [apply grows_refl | apply grows_app]. }
  assert (parts (store s) msg = default [] (arrays1 !! a)) as Hparts1.
  { destruct Hprep as [[Hc ->]|(_ & -> & ->)].
    - unfold parts. by rewrite Hc.
    - by rewrite lookup_app_r, Nat.sub_diag. }
  assert (grows arrays1 (arrays (store s'))) as Hg2.
  { destruct Hcases as [(_ & _ & l & last_msg & al & old & pushed & _ & _ & _ &
                          Ha & Hold & -> & _)
                       |[(_ & parts & Ha & -> & _)|(_ & _ & -> & _)]].
    - by apply grows_insert.
    - apply grows_refl.
    - apply grows_refl. }
  split.
  { intros a0 Hc. destruct Hprep as [[Hc' _]|(Hna & _)]; [congruence|].
    destruct Hna. by exists a0. }
  split.
  { intros Hna. destruct Hprep as [[Hc _]|(_ & -> & ->)].
    - destruct Hna. by exists a.
    - apply grows_length in Hg2. rewrite length_app in Hg2. simpl in Hg2. lia. }
  split; [by eapply grows_trans|].
  rewrite Hparts1. destruct (arrays1 !! a) as [l|] eqn:Hl; simpl; [|apply prefix_nil].
  destruct (Hg2 _ _ Hl) as (p & ->). simpl. by apply prefix_app_r.
Qed.

(** **** The heap from turn to turn *)

Lemma evolves_refl (h : heap) : evolves [] h h.
Proof.
  split; [done|]. split; [apply grows_refl|].
  intros o msg Ho. exists msg. split; [done|]. split; [done|].
  split; [by intros ?%elem_of_nil|]. done.
Qed.

Lemma evolves_trans (t1 t2 : list loc) (h1 h2 h3 : heap) :
  evolves t1 h1 h2 → evolves t2 h2 h3 → evolves (t1 ++ t2) h1 h3.
Proof.
  intros (Hlen12 & Hg12 & Ho12) (Hlen23 & Hg23 & Ho23).
  split; [congruence|]. split; [by eapply grows_trans|].
  intros o msg Ho.
  destruct (Ho12 _ _ Ho) as (msg2 & Ho2 & Hout12 & Hin12 & Hc12 & Hp12).
  destruct (Ho23 _ _ Ho2) as (msg3 & Ho3 & Hout23 & Hin23 & Hc23 & Hp23).
  exists msg3. split; [done|]. split_and!.
  - intros Hnot. rewrite elem_of_app in Hnot.
    rewrite Hout23, Hout12 by tauto. done.
  - intros [Hin|Hin]%elem_of_app.
    + destruct (Hin12 Hin) as [[a Ha] Hr].
      destruct (decide (o ∈ t2)) as [Hin2|Hout2].
      * destruct (Hin23 Hin2) as [Harr ->].
        split; [done|]. rewrite Hr. apply default_role_idempotent.
      * rewrite (Hout23 Hout2). split; [by exists a | done].
    + destruct (Hin23 Hin) as [Harr ->]. split; [done|].
      destruct (decide (o ∈ t1)) as [Hin1|Hout1].
      * destruct (Hin12 Hin1) as [_ ->]. apply default_role_idempotent.
      * by rewrite (Hout12 Hout1).
  - intros a Ha. by apply Hc23, Hc12.
  - by etrans.
Qed.

Lemma message_turn_evolves (s s' : loop_state) (m : loc) :
  message_turn s m = Returned s' → evolves [m] (store s) (store s').
Proof.
  intros Hturn.
  destruct (message_turn_heap _ _ _ Hturn)
    as (msg & a & Hm & Hobjs & Hsame & _ & Hg & Hparts).
  pose proof (lookup_lt_Some _ _ _ Hm) as Hlt.
  split; [by rewrite Hobjs, length_insert|]. split; [done|].
  intros o msg' Ho. destruct (decide (o = m)) as [->|Hne].
  - assert (msg' = msg) as -> by congruence.
    eexists. split; [rewrite Hobjs; by apply list_lookup_insert_eq|].
    split_and!.
    + intros Hnot. destruct Hnot. by apply list_elem_of_singleton.
    + intros _. split; [by exists a | done].
    + intros a0 Ha0. simpl. f_equal. by apply Hsame.
    + done.
  - exists msg'. split; [by rewrite Hobjs, list_lookup_insert_ne|].
    split_and!; try done.
    + intros Hin%list_elem_of_singleton. done.
    + by apply grows_parts.
Qed.

Lemma message_loop_evolves (messages : list loc) (s s' : loop_state) :
  message_loop s messages = Returned s' → evolves messages (store s) (store s').
Proof.
  revert s. induction messages as [|m messages IH]; intros s; simpl.
  - intros [= <-]. apply evolves_refl.
  - intros Hloop.
    destruct (message_turn s m) as [s1|] eqn:Hturn; [|done]. simpl in Hloop.
    apply (evolves_trans [m] messages _ (store s1)).
    + by apply message_turn_evolves.
    + by apply IH.
Qed.

(** **** The system prompts *)

Lemma prefix_sublist {A} (l1 l2 : list A) :
  l1 `prefix_of` l2 → l1 `sublist_of` l2.
Proof. intros [k ->]. by apply sublist_inserts_r. Qed.

Lemma system_parts_cons (h : heap) (m : loc) (messages : list loc) :
  system_parts h (m :: messages) = system_parts h [m] ++ system_parts h messages.
Proof. unfold system_parts. simpl. by rewrite app_nil_r. Qed.

Lemma system_parts_evolves (touched : list loc) (h h' : heap) (messages : list loc) :
  evolves touched h h' →
  system_parts h messages `sublist_of` system_parts h' messages.
Proof.
  intros (_ & _ & Hobjs). induction messages as [|m messages IH]; [done|].
  rewrite (system_parts_cons h m messages), (system_parts_cons h' m messages).
  apply sublist_app; [|done].
  unfold system_parts; simpl. rewrite !app_nil_r.
  destruct (objects h !! m) as [msg|] eqn:Hm; [|apply sublist_nil_l].
  destruct (Hobjs _ _ Hm) as (msg' & -> & Hout & Hin & _ & Hparts).
  case_bool_decide as Hsys; [|apply sublist_nil_l].
  assert (role msg' = Some "system") as Hsys'.
  { destruct (decide (m ∈ touched)) as [Hm'|Hm'].
    - destruct (Hin Hm') as [_ ->]. by apply default_role_system.
    - by rewrite (Hout Hm'). }
  rewrite bool_decide_eq_true_2 by done. by apply prefix_sublist.
Qed.

(** A turn adds to [system_prompts] the parts of its message, as they
    are when the turn begins, if that is a system message. *)
Lemma message_turn_system_prompts (s s' : loop_state) (m : loc) :
  message_turn s m = Returned s' →
  system_prompts s' = system_prompts s ++ system_parts (store s) [m].
Proof.
  intros Hturn.
  destruct (message_turn_returned _ _ _ Hturn)
    as (msg & a & arrays1 & Hm & Hprep & Hobjs & Hcases).
  unfold system_parts; simpl. rewrite Hm, app_nil_r.
  destruct Hcases as [(Hrole & _ & l & last_msg & al & old & pushed & _ & _ & _ &
                        _ & _ & _ & _ & -> & _)
                     |[(Hrole & parts' & Ha & _ & _ & -> & _)
                      |(Hrole & _ & _ & _ & -> & _)]].
  - rewrite bool_decide_eq_false_2, app_nil_r; [done|].
    intros Hsys%default_role_system. congruence.
  - assert (role msg = Some "system") as Hsys by by apply default_role_system.
    rewrite bool_decide_eq_true_2 by done. f_equal.
    destruct Hprep as [[Hc ->]|(_ & -> & ->)].
    + unfold parts. by rewrite Hc, Ha.
    + rewrite lookup_app_r, Nat.sub_diag in Ha by done. by injection Ha as <-.
  - rewrite bool_decide_eq_false_2, app_nil_r; [done|].
    by intros Hsys%default_role_system.
Qed.

Lemma message_loop_system_prompts (messages : list loc) (s s' : loop_state) :
  message_loop s messages = Returned s' →
  ∃ added,
    system_prompts s' = system_prompts s ++ added ∧
    system_parts (store s) messages `sublist_of` added.
Proof.
  revert s. induction messages as [|m messages IH]; intros s; cbn [message_loop].
  - intros [= <-]. exists []. by rewrite app_nil_r.
  - intros Hloop.
    destruct (message_turn s m) as [s1|] eqn:Hturn; [|done]. simpl in Hloop.
    destruct (IH _ Hloop) as (added & Hadded & Hsub).
    exists (system_parts (store s) [m] ++ added). split.
    + by rewrite Hadded, (message_turn_system_prompts _ _ _ Hturn), app_assoc.
    + rewrite (system_parts_cons _ m messages). apply sublist_app; [reflexivity|].
      etrans; [|exact Hsub].
      eapply system_parts_evolves. by apply message_turn_evolves.
Qed.

(** **** The loop invariant *)

Lemma role_at_lookup (h : heap) (m : loc) (msg : message) :
  objects h !! m = Some msg → role_at h m = role msg.
Proof. unfold role_at. by intros ->. Qed.

Lemma message_turn_role_at (s s' : loop_state) (m x : loc) :
  message_turn s m = Returned s' →
  truthy (role_at (store s) x) = true →
  role_at (store s') x = role_at (store s) x.
Proof.
  intros Hturn Hx.
  destruct (message_turn_heap _ _ _ Hturn) as (msg & a & Hm & Hobjs & _).
  pose proof (lookup_lt_Some _ _ _ Hm) as Hlt.
  unfold role_at in *. rewrite Hobjs.
  destruct (decide (x = m)) as [->|Hne].
  - rewrite list_lookup_insert_eq by done. rewrite Hm in *. simpl in *.
    by apply default_role_truthy.
  - by rewrite list_lookup_insert_ne.
Qed.

Lemma message_turn_role_at_self (s s' : loop_state) (m : loc) :
  message_turn s m = Returned s' →
  ∃ msg, objects (store s) !! m = Some msg ∧
         role_at (store s') m = default_role (role msg).
Proof.
  intros Hturn.
  destruct (message_turn_heap _ _ _ Hturn) as (msg & a & Hm & Hobjs & _).
  pose proof (lookup_lt_Some _ _ _ Hm) as Hlt.
  exists msg. split; [done|]. unfold role_at. rewrite Hobjs.
  by rewrite list_lookup_insert_eq.
Qed.

Lemma loop_invariant_start (h : heap) : valid_heap h → loop_invariant (start h).
Proof.
  intros Hv. split; [done|]. split_and!; simpl.
  - by intros m ?%elem_of_nil.
  - done.
  - by intros _ m ?%elem_of_nil.
  - intros i j m1 m2 Hi. by rewrite lookup_nil in Hi.
Qed.

Lemma message_turn_invariant (s s' : loop_state) (m : loc) :
  loop_invariant s → message_turn s m = Returned s' → loop_invariant s'.
Proof.
  intros (Hv & Ha & Hp & Hn & Hu) Hturn.
  destruct (message_turn_heap _ _ _ Hturn)
    as (msg & a & Hm & Hobjs & Hsame & Hfresh & Hg & _).
  pose proof (lookup_lt_Some _ _ _ Hm) as Hlt.
  pose proof (grows_length _ _ Hg) as Hlen.
  destruct (message_turn_role_at_self _ _ _ Hturn) as (msg' & Hm' & Hself).
  assert (msg' = msg) as -> by congruence. clear Hm'.
  assert (∀ x, x ∈ adapted_messages s →
            role_at (store s') x = role_at (store s) x) as Hstable.
  { intros x Hx. apply (message_turn_role_at _ _ _ _ Hturn).
    destruct (Ha _ Hx) as (msgx & Hlx & _ & Htr & _).
    by rewrite (role_at_lookup _ _ _ Hlx). }
  assert (∀ x, x ∈ adapted_messages s →
            ∃ msgx, objects (store s') !! x = Some msgx ∧ is_array (content msgx) ∧
                    truthy (role msgx) = true ∧ role msgx ≠ Some "system") as Hold.
  { intros x Hx. destruct (Ha _ Hx) as (msgx & Hlx & Harr & Htr & Hns).
    rewrite Hobjs. destruct (decide (x = m)) as [->|Hne].
    - assert (msgx = msg) as -> by congruence.
      eexists. split; [by apply list_lookup_insert_eq|]. simpl.
      rewrite (default_role_truthy _ Htr). split; [by exists a | done].
    - exists msgx. by rewrite list_lookup_insert_ne. }
  assert (valid_heap (store s')) as Hv'.
  { intros o msgo ao Ho Hc. rewrite Hobjs in Ho.
    destruct (decide (o = m)) as [->|Hne].
    - rewrite list_lookup_insert_eq in Ho by done. injection Ho as <-.
      simpl in Hc. injection Hc as <-.
      destruct (content msg) as [| | | | |a0|] eqn:Hc;
        try (apply Hfresh; by intros [? ?]).
      rewrite (Hsame a0 eq_refl). specialize (Hv _ _ _ Hm Hc). lia.
    - rewrite list_lookup_insert_ne in Ho by done.
      specialize (Hv _ _ _ Ho Hc). lia. }
  split; [done|].
  destruct (message_turn_returned _ _ _ Hturn)
    as (msg' & a' & arrays1 & Hm' & _ & _ & Hcases).
  assert (msg' = msg) as -> by congruence. clear Hm'.
  destruct Hcases as [(Hrole & Hprev & l & last_msg & al & old & pushed & _ & _ &
                        _ & _ & _ & _ & Had & _ & Hpr)
                     |[(Hrole & _ & _ & _ & Had & _ & Hpr)
                      |(Hns & Hnu & _ & Had & _ & Hpr)]].
  - (* merged onto the last placed message *)
    rewrite Had, Hpr. split_and!; try done.
    + intros Hfalse. congruence.
    + intros i j m1 m2 Hi Hj. rewrite !Hstable by by eapply list_elem_of_lookup_2.
      by apply Hu.
  - (* a system message *)
    rewrite Had, Hpr. split_and!; try done.
    + intros Hfalse x Hx. rewrite Hstable by done. by apply Hn.
    + intros i j m1 m2 Hi Hj. rewrite !Hstable by by eapply list_elem_of_lookup_2.
      by apply Hu.
  - (* a new entry *)
    rewrite Had, Hpr. split_and!.
    + intros x [Hx| ->%list_elem_of_singleton]%elem_of_app; [by apply Hold|].
      eexists. split; [rewrite Hobjs; by apply list_lookup_insert_eq|]. simpl.
      split; [by exists a|]. split; [apply truthy_default_role | done].
    + intros _ Hnil. by destruct (adapted_messages s).
    + case_bool_decide as Huser; [done|]. intros Hfalse x.
      intros [Hx| ->%list_elem_of_singleton]%elem_of_app.
      * rewrite Hstable by done. by apply Hn.
      * by rewrite Hself.
    + intros i j m1 m2 Hi Hj Hu1 Hu2.
      apply lookup_snoc_Some in Hi as [[Hi Hi']|[-> <-]];
        apply lookup_snoc_Some in Hj as [[Hj Hj']|[-> <-]].
      * rewrite Hstable in Hu1, Hu2 by by eapply list_elem_of_lookup_2.
        by eapply Hu.
      * rewrite Hself in Hu2. rewrite Hstable in Hu1 by by eapply list_elem_of_lookup_2.
        destruct (Hn (Hnu Hu2) m1); [by eapply list_elem_of_lookup_2 | done].
      * rewrite Hself in Hu1. rewrite Hstable in Hu2 by by eapply list_elem_of_lookup_2.
        destruct (Hn (Hnu Hu1) m2); [by eapply list_elem_of_lookup_2 | done].
      * done.
Qed.

(** Between two turns, a turn on an object returns. *)
Lemma message_turn_returns (s : loop_state) (m : loc) :
  loop_invariant s → m < length (objects (store s)) →
  ∃ s', message_turn s m = Returned s'.
Proof.
  intros (Hv & Ha & Hp & _) Hlt.
  destruct (lookup_lt_is_Some_2 _ _ Hlt) as [msg Hm].
  destruct (prepare_message_returns _ _ _ Hm) as (a & arrays1 & Hprep & Harr).
  assert (length (arrays (store s)) ≤ length arrays1) as Hlen.
  { destruct Harr as [[_ ->]|(_ & _ & ->)]; [done|]. rewrite length_app. lia. }
  assert (is_Some (arrays1 !! a)) as [pushed Hpushed].
  { apply lookup_lt_is_Some. destruct Harr as [[Hc ->]|(_ & -> & ->)].
    - by eapply Hv.
    - rewrite length_app. simpl. lia. }
  unfold message_turn. rewrite Hprep. simpl.
  rewrite list_lookup_insert_eq by done. simpl.
  destruct (bool_decide (default_role (role msg) = Some "user") &&
            previous_was_user s) eqn:Hmerge.
  - apply andb_prop in Hmerge as [_ Hprev].
    destruct (last (adapted_messages s)) as [l|] eqn:Hlast.
    2: { apply last_None in Hlast. by destruct (Hp Hprev). }
    simpl.
    assert (l ∈ adapted_messages s) as Hl by by apply last_Some_elem_of.
    destruct (Ha _ Hl) as (msgl & Hlm & [al Hal] & _).
    assert (∃ last_msg al',
      <[m:={| role := default_role (role msg); content := array a |}]>
        (objects (store s)) !! l = Some last_msg ∧
      content last_msg = array al' ∧ is_Some (arrays1 !! al'))
      as (last_msg & al' & -> & Hc' & [old Hold]).
    { destruct (decide (l = m)) as [->|Hne].
      - eexists _, a. split; [by apply list_lookup_insert_eq|]. split; [done|]. eauto.
      - exists msgl, al. rewrite list_lookup_insert_ne by done.
        split; [done|]. split; [done|].
        apply lookup_lt_is_Some. specialize (Hv _ _ _ Hlm Hal). lia. }
    simpl. rewrite Hpushed. simpl. rewrite Hc'. simpl. rewrite Hold. simpl. eauto.
  - destruct (bool_decide (default_role (role msg) = Some "system")).
    + rewrite Hpushed. simpl. eauto.
    + eauto.
Qed.

(** On a valid heap and sequence the loop returns, and leaves its
    invariant. *)
Lemma message_loop_returns (messages : list loc) (s : loop_state) :
  loop_invariant s → valid_messages (store s) messages →
  ∃ s', message_loop s messages = Returned s' ∧ loop_invariant s'.
Proof.
  revert s. induction messages as [|m messages IH]; intros s Hinv Hvalid.
  - by exists s.
  - destruct (message_turn_returns s m Hinv) as [s1 Hturn].
    { apply Hvalid. by left. }
    pose proof (message_turn_invariant _ _ _ Hinv Hturn) as Hinv1.
    destruct (IH s1 Hinv1) as (s' & Hloop & Hinv').
    { intros x Hx.
      destruct (message_turn_evolves _ _ _ Hturn) as (-> & _).
      apply Hvalid. by right. }
    exists s'. split; [|done]. simpl. by rewrite Hturn.
Qed.

Lemma sample_heap_valid : valid_heap sample_heap.
Proof.
  intros o msg a Ho Hc.
  do 4 (destruct o as [|o]; [injection Ho as <-; discriminate Hc|]).
  discriminate Ho.
Qed.

Lemma sample_messages_valid : valid_messages sample_heap [0; 1; 2; 3].
Proof.
  intros m Hm. apply list_elem_of_In in Hm. simpl in *.
  destruct Hm as [<-|[<-|[<-|[<-|[]]]]]; lia.
Qed.

(** C1. For every input message sequence (of message objects, on a heap
    whose array references are to arrays), the loop returns, and then: no
    entry of [adapted_messages] has the role ["system"]; no two
    consecutive entries of [adapted_messages] have the role ["user"]; and
    the content parts of the system-role messages of the input, in the
    order of the input, are a subsequence of [system_prompts]. *)
Theorem adapted_messages_roles (h : heap) (messages : list loc) :
  valid_heap h → valid_messages h messages →
  ∃ s,
    message_loop (start h) messages = Returned s ∧
    (∀ m, m ∈ adapted_messages s → role_at (store s) m ≠ Some "system") ∧
    (∀ i m1 m2,
       adapted_messages s !! i = Some m1 →
       adapted_messages s !! S i = Some m2 →
       ¬ (role_at (store s) m1 = Some "user" ∧
          role_at (store s) m2 = Some "user")) ∧
    system_parts h messages `sublist_of` system_prompts s.
Proof.
  intros Hv Hmsgs.
  destruct (message_loop_returns messages (start h))
    as (s & Hloop & (_ & Ha & _ & _ & Hu)).
  { by apply loop_invariant_start. }
  { done. }
  exists s. split; [done|]. split_and!.
  - intros m Hm. destruct (Ha _ Hm) as (msg & Hl & _ & _ & Hns).
    by rewrite (role_at_lookup _ _ _ Hl).
  - intros i m1 m2 Hi Hj [Hu1 Hu2].
    specialize (Hu _ _ _ _ Hi Hj Hu1 Hu2). lia.
  - destruct (message_loop_system_prompts _ _ _ Hloop) as (added & Hadded & Hsub).
    simpl in Hadded. by rewrite Hadded.
Qed.

Lemma adapted_messages_roles_witness :
  valid_heap sample_heap ∧ valid_messages sample_heap [0; 1; 2; 3] ∧
  ∃ s,
    message_loop (start sample_heap) [0; 1; 2; 3] = Returned s ∧
    system_parts sample_heap [0; 1; 2; 3] `sublist_of` system_prompts s.
Proof.
  split; [exact sample_heap_valid|]. split; [exact sample_messages_valid|].
  destruct (adapted_messages_roles sample_heap [0; 1; 2; 3]
              sample_heap_valid sample_messages_valid)
    as (s & Hloop & _ & _ & Hsys).
  exists s. split; [exact Hloop | exact Hsys].
Defined.

(** C2, on the code.  After a user turn and an assistant turn the last
    placed entry is the assistant message; the turn on a further user
    message then places no new entry: it pushes the part of that user
    message onto the content of the assistant message. *)
Theorem user_turn_after_assistant :
  message_loop (start alternating_heap) [0; 1] = Returned assistant_placed ∧
  last (adapted_messages assistant_placed) = Some 1 ∧
  role_at (store assistant_placed) 1 = Some "assistant" ∧
  role_at (store assistant_placed) 2 = Some "user" ∧
  message_turn assistant_placed 2 = Returned user_merged ∧
  message_loop (start alternating_heap) [0; 1; 2] = Returned user_merged ∧
  adapted_messages user_merged = adapted_messages assistant_placed ∧
  role_at (store user_merged) 1 = Some "assistant" ∧
  (objects (store user_merged) !! 1 ≫= λ msg,
     Some (parts (store user_merged) msg)) =
    Some [text_part "b"; text_part "c"].
Proof. split_and!; vm_compute; reflexivity. Qed.

(** C3 as stated fails: the loop on one message with a string content
    leaves that message object with an array as its content. *)
Lemma message_loop_rewrites_message :
  ∃ s,
    message_loop (start sample_heap) [0] = Returned s ∧
    objects sample_heap !! 0 = Some {| role := Some "user"; content := str "a" |} ∧
    objects (store s) !! 0 = Some {| role := Some "user"; content := array 0 |} ∧
    store s ≠ sample_heap.
Proof.
  exists {| store :=
              {| objects :=
                   [ {| role := Some "user"; content := array 0 |};
                     {| role := Some "assistant"; content := str "b" |};
                     {| role := None; content := str "c" |};
                     {| role := Some "system"; content := str "be brief" |} ];
                 arrays := [ [text_part "a"] ] |};
            adapted_messages := [0];
            system_prompts := [];
            previous_was_user := true |}.
  split_and!; try (vm_compute; reflexivity). discriminate.
Qed.

(** The loop on a sequence in two parts. *)
Lemma message_loop_app (s : loop_state) (before after : list loc) :
  message_loop s (before ++ after) =
  (s1 ← message_loop s before; message_loop s1 after).
Proof.
  revert s. induction before as [|m before IH]; intros s; [done|].
  cbn [app message_loop]. destruct (message_turn s m) as [s1|e]; simpl; [|done].
  apply IH.
Qed.

(** What is pushed in a merge is the parts of the merged message. *)
Lemma wrapped_parts (h : heap) (msg : message) (a : loc)
    (arrays1 : list (list value)) (pushed : list value) :
  (content msg = array a ∧ arrays1 = arrays h) ∨
  (¬ is_array (content msg) ∧ a = length (arrays h) ∧
   arrays1 = arrays h ++ [parts h msg]) →
  arrays1 !! a = Some pushed → pushed = parts h msg.
Proof.
  intros [[Hc ->]|(Hc & -> & ->)] Ha.
  - unfold parts. by rewrite Hc, Ha.
  - rewrite lookup_app_r, Nat.sub_diag in Ha by done. by injection Ha as <-.
Qed.

(** C3, as the code has it.  The loop works in place on the message
    objects of the caller, and on nothing else of the heap: it adds no
    object and leaves every object that is not in the input sequence as
    it was; a message of the input ends with its role, or with ["user"]
    if its role was falsy, and with an array as its content: the array it
    had, or else a new one; an array only has elements pushed at its end,
    so that the content parts a message had are at the front of its
    content.  Turn by turn: the turn on a message writes that message
    object, with its content wrapped in a new array, the next of the
    heap, unless it is an array already; in a merge (a message treated as
    a user message once a user message has been placed) it then pushes
    the parts of that message onto the content array of the last placed
    entry; in any other turn it writes no array. *)
Theorem message_loop_writes (h : heap) (messages : list loc) :
  valid_heap h → valid_messages h messages →
  ∃ s,
    message_loop (start h) messages = Returned s ∧
    length (objects (store s)) = length (objects h) ∧
    (∀ o, o ∉ messages → objects (store s) !! o = objects h !! o) ∧
    (∀ o msg, o ∈ messages → objects h !! o = Some msg →
       ∃ a,
         objects (store s) !! o =
           Some {| role := if truthy (role msg) then role msg else Some "user";
                   content := array a |} ∧
         (∀ a0, content msg = array a0 → a = a0) ∧
         parts h msg `prefix_of` default [] (arrays (store s) !! a)) ∧
    (∀ a l, arrays h !! a = Some l →
       ∃ pushed, arrays (store s) !! a = Some (l ++ pushed)) ∧
    (∀ before m after, messages = before ++ m :: after →
       ∃ s1 s2 msg a arrays1,
         message_loop (start h) before = Returned s1 ∧
         message_turn s1 m = Returned s2 ∧
         message_loop s2 after = Returned s ∧
         objects (store s1) !! m = Some msg ∧
         ((content msg = array a ∧ arrays1 = arrays (store s1)) ∨
          (¬ is_array (content msg) ∧ a = length (arrays (store s1)) ∧
           arrays1 = arrays (store s1) ++ [parts (store s1) msg])) ∧
         objects (store s2) =
           <[m := {| role := default_role (role msg); content := array a |}]>
             (objects (store s1)) ∧
         if bool_decide (default_role (role msg) = Some "user") &&
            previous_was_user s1
         then
           ∃ l last_msg al old,
             last (adapted_messages s1) = Some l ∧
             objects (store s2) !! l = Some last_msg ∧
             content last_msg = array al ∧
             arrays1 !! al = Some old ∧
             arrays (store s2) = <[al := old ++ parts (store s1) msg]> arrays1 ∧
             adapted_messages s2 = adapted_messages s1
         else arrays (store s2) = arrays1).
Proof.
  intros Hv Hmsgs.
  destruct (message_loop_returns messages (start h)) as (s & Hloop & _).
  { by apply loop_invariant_start. }
  { done. }
  exists s. split; [done|].
  destruct (message_loop_evolves _ _ _ Hloop) as (Hlen & Hg & Hobjs).
  simpl in *. split; [done|]. split_and!.
  - intros o Ho. destruct (objects h !! o) as [msg|] eqn:Hl.
    + destruct (Hobjs _ _ Hl) as (msg' & -> & Hout & _). by rewrite (Hout Ho).
    + apply lookup_ge_None in Hl. apply lookup_ge_None. lia.
  - intros o msg Ho Hl.
    destruct (Hobjs _ _ Hl) as (msg' & Hl' & _ & Hin & Hc & Hp).
    destruct (Hin Ho) as [[a Ha] Hr]. exists a. split_and!.
    + rewrite Hl'. destruct msg'; simpl in *. by rewrite Ha, Hr.
    + intros a0 Ha0. specialize (Hc _ Ha0). congruence.
    + unfold parts in Hp at 2. by rewrite Ha in Hp.
  - done.
  - intros before m after ->.
    rewrite message_loop_app in Hloop.
    destruct (message_loop (start h) before) as [s1|] eqn:Hbefore; [|done].
    simpl in Hloop.
    destruct (message_turn s1 m) as [s2|] eqn:Hturn; [|done]. simpl in Hloop.
    destruct (message_turn_returned _ _ _ Hturn)
      as (msg & a & arrays1 & Hm & Hwrap & Hobjects & Hways).
    exists s1, s2, msg, a, arrays1. split_and!; try done.
    destruct Hways as [(Hu & Hprev & l & last_msg & al & old & pushed & Hlast & Hl &
                        Hal & Hpushed & Hold & Harrays & Hadapted & _)
                      |[(Hsys & ps & _ & Harrays & _)
                       |(_ & Hnot & Harrays & _)]].
    + rewrite bool_decide_eq_true_2, Hprev by done. simpl.
      exists l, last_msg, al, old. split_and!; try done.
      by rewrite <- (wrapped_parts _ _ _ _ _ Hwrap Hpushed).
    + rewrite bool_decide_eq_false_2 by (rewrite Hsys; done). done.
    + destruct (bool_decide (default_role (role msg) = Some "user")) eqn:Huser;
        [|done].
      apply bool_decide_eq_true in Huser. by rewrite (Hnot Huser).
Qed.

Lemma message_loop_writes_witness :
  valid_heap sample_heap ∧ valid_messages sample_heap [0; 1; 2; 3] ∧
  ∃ s,
    message_loop (start sample_heap) [0; 1; 2; 3] = Returned s ∧
    length (objects (store s)) = 4 ∧
    ∃ s1 s2,
      message_loop (start sample_heap) [0; 1] = Returned s1 ∧
      message_turn s1 2 = Returned s2 ∧
      arrays (store s1) =
        [ [object [("type", str "text"); ("text", str "a")]];
          [object [("type", str "text"); ("text", str "b")]] ] ∧
      arrays (store s2) =
        [ [object [("type", str "text"); ("text", str "a")]];
          [object [("type", str "text"); ("text", str "b")];
           object [("type", str "text"); ("text", str "c")]];
          [object [("type", str "text"); ("text", str "c")]] ].
Proof.
  split; [exact sample_heap_valid|]. split; [exact sample_messages_valid|].
  destruct (message_loop_writes sample_heap [0; 1; 2; 3]
              sample_heap_valid sample_messages_valid)
    as (s & Hloop & Hlen & _ & _ & _ & Hturns).
  exists s. split; [exact Hloop|]. split; [exact Hlen|].
  destruct (Hturns [0; 1] 2 [3] eq_refl)
    as (s1 & s2 & msg & a & arrays1 & Hbefore & Hturn & _).
  exists s1, s2. split; [exact Hbefore|]. split; [exact Hturn|].
  vm_compute in Hbefore. injection Hbefore as <-.
  vm_compute in Hturn. injection Hturn as <-.
  split; reflexivity.
Defined.

(** *** The streaming loop *)

Lemma append_nil (s : string) : "" +:+ s = s.
Proof. reflexivity. Qed.

Lemma append_cons (c : ascii) (a b : string) :
  String c a +:+ b = String c (a +:+ b).
Proof. reflexivity. Qed.

Lemma append_assoc (a b c : string) : (a +:+ b) +:+ c = a +:+ (b +:+ c).
Proof.
  induction a as [|x a IH]; [reflexivity|].
  rewrite !append_cons. by f_equal.
Qed.

(** The reader undoes the escape of each code unit. *)
Lemma unquote_code_unit (c : ascii) (rest : string) :
  unquote (quote_code_unit c +:+ rest) =
  ('(text, after) ← unquote rest; Some (String c text, after)).
Proof. destruct c as [[] [] [] [] [] [] [] []]; reflexivity. Qed.

Lemma unquote_code_units (text rest : string) :
  unquote (quote_code_units text +:+ String quotation_mark rest) = Some (text, rest).
Proof.
  induction text as [|c text IH]; [done|].
  cbn [quote_code_units]. rewrite append_assoc, unquote_code_unit, IH. done.
Qed.

(** A line written for a delta reads back as the StreamEvent with that
    delta's text. *)
Lemma parse_line_stringify_text (text : option string) :
  parse_line (stringify_text text +:+ String line_feed "") = Some text.
Proof.
  destruct text as [text|]; [|reflexivity].
  unfold parse_line, stringify_text, quote.
  change (quote_code_units "text") with "text".
  repeat (rewrite append_assoc || rewrite append_cons || rewrite append_nil).
  pose proof (unquote_code_units text (String "}" (String line_feed ""))) as Hq.
  remember (quote_code_units text +:+ String quotation_mark
              (String "}" (String line_feed ""))) as body.
  cbv -[unquote]. rewrite Hq. reflexivity.
Qed.

Lemma text_delta_delta (event : Event.t) (delta : Delta.t) :
  text_delta event = Some delta →
  Event.type event = Some "content_block_delta" ∧
  Event.delta event = Some delta ∧
  Delta.type delta = Some "text_delta".
Proof.
  unfold text_delta. case_bool_decide; [|done].
  destruct (Event.delta event) as [d|]; simpl; [|done].
  case_bool_decide; [|done]. by intros [= <-].
Qed.

Lemma skipped_well_formed (event : Event.t) :
  well_formed event →
  skipped event = Returned (bool_decide (text_delta event = None)).
Proof.
  unfold well_formed, skipped, text_delta. intros Hwf.
  destruct (decide (Event.type event = Some "content_block_delta")) as [Hty|Hty].
  - destruct (Hwf Hty) as [d Hd].
    rewrite (bool_decide_eq_false_2 (Event.type event ≠ _)) by tauto.
    rewrite (bool_decide_eq_true_2 (Event.type event = _)) by done.
    rewrite Hd. simpl. repeat case_bool_decide; done.
  - rewrite (bool_decide_eq_true_2 (Event.type event ≠ _)) by done.
    by rewrite (bool_decide_eq_false_2 (Event.type event = _)).
Qed.

(** The effects of one turn of the loop on a well-formed event. *)
Lemma for_await_cons (counts : Counts.t) (event : Event.t)
    (completion : list Event.t) (rejection : option exn) :
  well_formed event →
  for_await counts (event :: completion) rejection =
  let '(more, r) := for_await (count counts event) completion rejection in
  (completion_next (Some event) ::
   match text_delta event with
   | Some delta =>
       [stream_write (stringify_text (Delta.text delta) +:+ String line_feed "")]
   | None => []
   end ++ more, r).
Proof.
  intros Hwf. simpl. unfold mbind, task_bind. simpl.
  rewrite (skipped_well_formed _ Hwf). simpl.
  destruct (text_delta event) as [delta|] eqn:Htd; simpl.
  - apply text_delta_delta in Htd as (_ & -> & _). simpl.
    by destruct (for_await (count counts event) completion rejection).
  - by destruct (for_await (count counts event) completion rejection).
Qed.

(** One turn of the loop, on any event: a well-formed event is pulled
    and, if it is a text delta, written; on any other event the loop
    throws once it has pulled it. *)
Lemma for_await_cons_any (counts : Counts.t) (event : Event.t)
    (completion : list Event.t) (rejection : option exn) :
  (well_formed event ∧
   for_await counts (event :: completion) rejection =
   let '(more, r) := for_await (count counts event) completion rejection in
   (completion_next (Some event) ::
    match text_delta event with
    | Some delta =>
        [stream_write (stringify_text (Delta.text delta) +:+ String line_feed "")]
    | None => []
    end ++ more, r)) ∨
  (¬ well_formed event ∧
   for_await counts (event :: completion) rejection =
   ([completion_next (Some event)], Threw TypeError)).
Proof.
  destruct (decide (Event.type event = Some "content_block_delta")) as [Hty|Hty].
  - destruct (Event.delta event) as [delta|] eqn:Hd.
    + left. assert (well_formed event) as Hwf by (intros _; eauto).
      split; [done|]. by apply for_await_cons.
    + right. split.
      * intros Hwf. destruct (Hwf Hty) as [? ?]. congruence.
      * simpl. unfold mbind, task_bind. simpl. unfold skipped.
        rewrite bool_decide_eq_false_2 by tauto. by rewrite Hd.
  - left. assert (well_formed event) as Hwf by (intros ?; done).
    split; [done|]. by apply for_await_cons.
Qed.

(** The loop itself does not call the provider. *)
Lemma for_await_no_calls (counts : Counts.t) (completion : list Event.t)
    (rejection : option exn) :
  provider_calls (for_await counts completion rejection).1 = [].
Proof.
  revert counts. induction completion as [|event completion IH]; intros counts.
  - by destruct rejection.
  - destruct (for_await_cons_any counts event completion rejection)
      as [[_ ->]|[_ ->]]; [|done].
    specialize (IH (count counts event)).
    destruct (for_await (count counts event) completion rejection) as [more r].
    simpl in *. by destruct (text_delta event).
Qed.

(** The task calls the provider once, whatever comes of it. *)
Lemma stream_task_calls `{Anthropic} (r : request) :
  provider_calls (stream_task r).1 = [r].
Proof.
  unfold stream_task, mbind, task_bind. simpl.
  destruct (messages_stream r) as [completion|e]; simpl; [|done].
  pose proof (for_await_no_calls no_counts (MessageStream.events completion)
                (MessageStream.rejection completion)) as Hcalls.
  destruct (for_await no_counts _ _) as [turns [totals|e]]; simpl in *.
  - f_equal. unfold provider_calls in *. rewrite omap_app, Hcalls. done.
  - by f_equal.
Qed.

(** The loop on well-formed events, however the iterator finishes: it
    pulls every event and writes a line per text delta; then it pulls the
    exhaustion and returns the counts, or it throws what the iterator
    rejects with. *)
Lemma for_await_run (counts : Counts.t) (completion : list Event.t)
    (rejection : option exn) :
  Forall well_formed completion →
  ∃ trace,
    for_await counts completion rejection =
      (trace,
       match rejection with
       | None => Returned (foldl count counts completion)
       | Some e => Threw e
       end) ∧
    written trace =
      (λ delta, stringify_text (Delta.text delta) +:+ String line_feed "")
        <$> omap text_delta completion ∧
    pulled trace =
      (Some <$> completion) ++
      match rejection with None => [None] | Some _ => [] end ∧
    Forall (λ e, e ≠ stream_end ∧ ∀ c, e ≠ usage_promise_resolve c) trace.
Proof.
  intros Hwf. revert counts.
  induction Hwf as [|event completion Hev _ IH]; intros counts.
  - destruct rejection as [e|]; (eexists; split; [reflexivity|]); repeat split.
    + constructor.
    + repeat constructor; done.
  - destruct (IH (count counts event)) as (more & Hrun & Hw & Hp & Hne).
    rewrite (for_await_cons _ _ _ _ Hev), Hrun.
    destruct (text_delta event) as [delta|] eqn:Htd;
      (eexists; split; [reflexivity|]); simpl; rewrite Htd, Hw, Hp;
      (split; [done|]); (split; [done|]);
      repeat (constructor; [by split|]); exact Hne.
Qed.

Lemma for_await_returns (counts : Counts.t) (completion : list Event.t) :
  Forall well_formed completion →
  ∃ trace,
    for_await counts completion None =
      (trace, Returned (foldl count counts completion)) ∧
    written trace =
      (λ delta, stringify_text (Delta.text delta) +:+ String line_feed "")
        <$> omap text_delta completion ∧
    pulled trace = (Some <$> completion) ++ [None] ∧
    Forall (λ e, e ≠ stream_end ∧ ∀ c, e ≠ usage_promise_resolve c) trace.
Proof. intros Hwf. exact (for_await_run counts completion None Hwf). Qed.

Lemma add_tokens_default (total : Z) (tokens : option Z) :
  add_tokens total tokens = (total + default 0 tokens)%Z.
Proof.
  destruct tokens as [n|]; simpl; [|lia]. case_bool_decide; lia.
Qed.

Lemma foldl_count (counts : Counts.t) (completion : list Event.t) :
  foldl count counts completion =
  {| Counts.input_tokens :=
       Counts.input_tokens counts + sum (input_delta <$> completion);
     Counts.output_tokens :=
       Counts.output_tokens counts + sum (output_delta <$> completion) |}%Z.
Proof.
  revert counts. induction completion as [|event completion IH]; intros counts.
  - destruct counts; unfold sum; simpl. f_equal; lia.
  - cbn [foldl fmap list_fmap]. rewrite IH. unfold count, sum; simpl.
    rewrite !add_tokens_default. unfold input_delta, output_delta.
    f_equal; lia.
Qed.

(** The task on a stream of well-formed events, however its iterator
    finishes. *)
Lemma stream_task_run `{Anthropic} (r : request) (events : list Event.t)
    (rejection : option exn) :
  messages_stream r =
    Returned {| MessageStream.events := events;
                MessageStream.rejection := rejection |} →
  Forall well_formed events →
  ∃ turns,
    stream_task r =
      (call_messages_stream r :: turns ++
         match rejection with
         | None => [stream_end;
                    usage_promise_resolve (foldl count no_counts events)]
         | Some _ => []
         end,
       match rejection with None => Returned () | Some e => Threw e end) ∧
    written turns =
      (λ delta, stringify_text (Delta.text delta) +:+ String line_feed "")
        <$> omap text_delta events ∧
    pulled turns =
      (Some <$> events) ++ match rejection with None => [None] | Some _ => [] end ∧
    Forall (λ e, e ≠ stream_end ∧ ∀ c, e ≠ usage_promise_resolve c) turns.
Proof.
  intros Hstream Hwf.
  destruct (for_await_run no_counts _ rejection Hwf) as (turns & Hrun & Hrest).
  exists turns. split; [|exact Hrest].
  unfold stream_task, mbind, task_bind. rewrite Hstream. simpl. rewrite Hrun.
  destruct rejection; simpl; by rewrite ?app_nil_r.
Qed.

Lemma stream_task_returns `{Anthropic} (r : request) (events : list Event.t) :
  messages_stream r =
    Returned {| MessageStream.events := events;
                MessageStream.rejection := None |} →
  Forall well_formed events →
  ∃ turns,
    stream_task r =
      (call_messages_stream r :: turns ++
         [stream_end;
          usage_promise_resolve (foldl count no_counts events)],
       Returned ()) ∧
    written turns =
      (λ delta, stringify_text (Delta.text delta) +:+ String line_feed "")
        <$> omap text_delta events ∧
    pulled turns = (Some <$> events) ++ [None] ∧
    Forall (λ e, e ≠ stream_end ∧ ∀ c, e ≠ usage_promise_resolve c) turns.
Proof. intros Hstream Hwf. exact (stream_task_run r events None Hstream Hwf). Qed.

Lemma written_app (a b : list effect) : written (a ++ b) = written a ++ written b.
Proof. apply omap_app. Qed.

Lemma pulled_app (a b : list effect) : pulled (a ++ b) = pulled a ++ pulled b.
Proof. apply omap_app. Qed.

Lemma resolved_app (a b : list effect) : resolved (a ++ b) = resolved a ++ resolved b.
Proof. apply omap_app. Qed.

Lemma resolved_none (trace : list effect) :
  Forall (λ e, e ≠ stream_end ∧ ∀ c, e ≠ usage_promise_resolve c) trace →
  resolved trace = [].
Proof.
  induction 1 as [|e trace [_ He] _ IH]; [done|].
  destruct e; try exact IH. by destruct (He counts).
Qed.

Lemma read_back (deltas : list Delta.t) :
  omap (λ chunk, mjoin (parse_line chunk))
    ((λ delta, stringify_text (Delta.text delta) +:+ String line_feed "") <$> deltas) =
  omap Delta.text deltas.
Proof.
  induction deltas as [|delta deltas IH]; [done|].
  cbn [fmap list_fmap omap list_omap]. rewrite parse_line_stringify_text.
  fold (@fmap list _ _ _ (λ delta, stringify_text (Delta.text delta) +:+ String line_feed "") deltas).
  fold (@omap list _ _ _ (λ chunk, mjoin (parse_line chunk))).
  fold (@omap list _ _ _ Delta.text deltas).
  rewrite IH. done.
Qed.

Lemma omap_text (events : list Event.t) :
  omap Delta.text (omap text_delta events) =
  omap (λ event, text_delta event ≫= Delta.text) events.
Proof.
  induction events as [|event events IH]; [done|].
  cbn [omap list_omap]. destruct (text_delta event) as [delta|]; simpl.
  - destruct (Delta.text delta); simpl; by f_equal.
  - done.
Qed.

(** Outside the well-formed events: on a [content_block_delta] without
    a [delta] the loop throws on [event.delta.type], and the task stops
    there, before the end of the stream and the resolution. *)
Lemma for_await_no_delta :
  for_await no_counts
    [{| Event.type := Some "content_block_delta"; Event.delta := None;
        Event.usage := None; Event.message := None |}; text_event "lo"] None =
  ([completion_next
      (Some {| Event.type := Some "content_block_delta"; Event.delta := None;
               Event.usage := None; Event.message := None |})],
   Threw TypeError).
Proof. reflexivity. Qed.

(** C8. For every finite sequence of (well-formed) provider events of a
    streamed session, the texts of the StreamEvents read back from the
    written lines are the texts of the text-delta content events of the
    input, in the same order, and so are their concatenations; the lines
    written are one per text-delta content event, so that no other event
    causes a write.  This holds however the iterator finishes after
    these events, by exhaustion or by a rejection. *)
Theorem stream_texts `{Anthropic} (r : request) (events : list Event.t)
    (rejection : option exn) :
  messages_stream r =
    Returned {| MessageStream.events := events;
                MessageStream.rejection := rejection |} →
  Forall well_formed events →
  let trace := (stream_task r).1 in
  String.concat "" (emitted_texts trace) =
    String.concat "" (omap (λ event, text_delta event ≫= Delta.text) events) ∧
  emitted_texts trace = omap (λ event, text_delta event ≫= Delta.text) events ∧
  written trace =
    (λ delta, stringify_text (Delta.text delta) +:+ String line_feed "")
      <$> omap text_delta events.
Proof.
  intros Hstream Hwf trace.
  destruct (stream_task_run r events rejection Hstream Hwf) as (turns & Hrun & Hw & _).
  assert (written trace =
    (λ delta, stringify_text (Delta.text delta) +:+ String line_feed "")
      <$> omap text_delta events) as Hwritten.
  { unfold trace. rewrite Hrun. cbn [fst].
    change (call_messages_stream r :: ?l) with ([call_messages_stream r] ++ l).
    rewrite !written_app, Hw. destruct rejection; simpl; by rewrite app_nil_r. }
  assert (emitted_texts trace =
    omap (λ event, text_delta event ≫= Delta.text) events) as Hem.
  { unfold emitted_texts. by rewrite Hwritten, read_back, omap_text. }
  by rewrite Hem.
Qed.

Lemma stream_texts_witness :
  Forall well_formed sample_events ∧
  String.concat "" (emitted_texts (@stream_task sample_client sample_request).1) =
    "Hello".
Proof.
  assert (Forall well_formed sample_events) as Hwf.
  { repeat constructor; intros Hty; try discriminate Hty; vm_compute; eauto. }
  split; [exact Hwf|].
  destruct (@stream_texts sample_client sample_request sample_events None
              eq_refl Hwf) as (Hconcat & _).
  rewrite Hconcat. reflexivity.
Defined.

(** C9. For every finite sequence of (well-formed) provider events, the
    usage promise is resolved exactly once, by the last effect of the
    task: every event and the exhaustion of the input have been pulled
    before it, the output stream has been ended just before it, and
    nothing is written after the end.  It is resolved with totals that
    start at [{ input_tokens: 0, output_tokens: 0 }] and are the sums of
    the [input_tokens] and of the [output_tokens] deltas of the events. *)
Theorem usage_promise_resolved_once `{Anthropic} (r : request) (events : list Event.t) :
  messages_stream r =
    Returned {| MessageStream.events := events;
                MessageStream.rejection := None |} →
  Forall well_formed events →
  let trace := (stream_task r).1 in
  let totals :=
    {| Counts.input_tokens := 0 + sum (input_delta <$> events);
       Counts.output_tokens := 0 + sum (output_delta <$> events) |}%Z in
  resolved trace = [totals] ∧
  foldl count no_counts events = totals ∧
  ∃ before,
    trace = before ++ [stream_end; usage_promise_resolve totals] ∧
    pulled before = (Some <$> events) ++ [None] ∧
    Forall (λ e, e ≠ stream_end ∧ ∀ c, e ≠ usage_promise_resolve c) before.
Proof.
  intros Hstream Hwf trace totals.
  destruct (stream_task_returns r events Hstream Hwf) as (turns & Hrun & _ & Hp & Hne).
  assert (foldl count no_counts events = totals) as Htot
    by apply foldl_count.
  assert (trace = (call_messages_stream r :: turns) ++
                  [stream_end; usage_promise_resolve totals]) as Htrace.
  { unfold trace. by rewrite Hrun, Htot. }
  assert (Forall (λ e, e ≠ stream_end ∧ ∀ c, e ≠ usage_promise_resolve c)
            (call_messages_stream r :: turns)) as Hne'.
  { constructor; [by split | exact Hne]. }
  split; [|split; [exact Htot|]].
  - rewrite Htrace, resolved_app, (resolved_none _ Hne'). reflexivity.
  - exists (call_messages_stream r :: turns). split; [exact Htrace|].
    split; [exact Hp | exact Hne'].
Qed.

Lemma usage_promise_resolved_once_witness :
  Forall well_formed sample_events ∧
  resolved (@stream_task sample_client sample_request).1 =
    [{| Counts.input_tokens := 12; Counts.output_tokens := 8 |}].
Proof.
  assert (Forall well_formed sample_events) as Hwf.
  { repeat constructor; intros Hty; try discriminate Hty; vm_compute; eauto. }
  split; [exact Hwf|].
  destruct (@usage_promise_resolved_once sample_client sample_request
              sample_events eq_refl Hwf) as (Hres & _).
  rewrite Hres. reflexivity.
Defined.

(** C10. For every provider event with a top-level [usage] object, the
    token deltas are read from that object alone: the counts after the
    event are the counts before plus the truthy [input_tokens] and
    [output_tokens] of that object, whatever [message.usage] holds; a
    value that is only under [message.usage] is not added. *)
Theorem top_level_usage_only (counts : Counts.t) (event : Event.t) (u : Usage.t) :
  Event.usage event = Some u →
  usage_of event = Some u ∧
  count counts event =
    {| Counts.input_tokens :=
         add_tokens (Counts.input_tokens counts) (Usage.input_tokens u);
       Counts.output_tokens :=
         add_tokens (Counts.output_tokens counts) (Usage.output_tokens u) |} ∧
  (∀ message',
     count counts {| Event.type := Event.type event; Event.delta := Event.delta event;
                     Event.usage := Event.usage event; Event.message := message' |} =
     count counts event) ∧
  (Usage.input_tokens u = None →
   Counts.input_tokens (count counts event) = Counts.input_tokens counts) ∧
  (Usage.output_tokens u = None →
   Counts.output_tokens (count counts event) = Counts.output_tokens counts).
Proof.
  intros Hu. unfold count, usage_of; simpl. rewrite Hu; simpl.
  repeat split; by intros ->.
Qed.

Lemma top_level_usage_only_witness :
  count no_counts
    {| Event.type := Some "message_delta"; Event.delta := None;
       Event.usage := Some {| Usage.input_tokens := None; Usage.output_tokens := Some 7%Z |};
       Event.message := Some {| StartMessage.usage :=
         Some {| Usage.input_tokens := Some 12%Z; Usage.output_tokens := Some 1%Z |} |} |} =
  {| Counts.input_tokens := 0; Counts.output_tokens := 7 |}.
Proof.
  destruct (top_level_usage_only no_counts
    {| Event.type := Some "message_delta"; Event.delta := None;
       Event.usage := Some {| Usage.input_tokens := None; Usage.output_tokens := Some 7%Z |};
       Event.message := Some {| StartMessage.usage :=
         Some {| Usage.input_tokens := Some 12%Z; Usage.output_tokens := Some 1%Z |} |} |}
    _ eq_refl) as (_ & Hcount & _).
  rewrite Hcount. reflexivity.
Defined.

(** *** The token limit *)

Lemma gt_lt (a b : Q) : gt a b = true ↔ (b < a)%Q.
Proof.
  unfold gt. rewrite negb_true_iff. split.
  - intros Hle. apply Qnot_le_lt. intros Hab.
    apply Qle_bool_iff in Hab. congruence.
  - intros Hlt. destruct (Qle_bool a b) eqn:Hle; [|done].
    apply Qle_bool_iff in Hle. by apply Qlt_not_le in Hlt.
Qed.

(** C4. For every adapted message list and system prompt list that the
    message loop leaves, [complete] throws [max_tokens_exceeded] with
    [input_tokens] the estimate (the length of the two serialisations,
    divided by 4) and [max_tokens] the limit 10000 if and only if the
    estimate is strictly greater than the limit, that is if and only if
    the text is longer than 40000, and then no effect, so no call of the
    provider, has happened.  With an estimate up to and equal to the
    limit [complete] goes on to its one call of the provider, and it
    returns unless that call is a [messages.create] that rejects: the
    only other way in which it throws. *)
Theorem token_limit `{JSON} `{Anthropic}
    (h : heap) (messages : list loc) (stream : bool) (model : option string)
    (s : loop_state) :
  message_loop (start h) messages = Returned s →
  let text := stringify_messages (store s) (adapted_messages s) +:+
              stringify_values (store s) (system_prompts s) in
  let estimate := token_count s in
  let limit := MAX_CLAUDE_INPUT_TOKENS in
  let r := {| model := nullish model get_default_model;
              max_tokens := 1000;
              temperature := 0;
              system := PUTER_PROMPT +:+
                        stringify_values (store s) (system_prompts s);
              ClaudeService.messages := adapted_messages s |} in
  estimate = (Z.of_nat (String.length text) # 4)%Q ∧
  limit = 10000%Z ∧
  (complete h messages stream model =
     ([], Threw (APIError "max_tokens_exceeded" estimate limit))
   ↔ (inject_Z limit < estimate)%Q) ∧
  ((inject_Z limit < estimate)%Q ↔ (40000 < Z.of_nat (String.length text))%Z) ∧
  ((estimate <= inject_Z limit)%Q →
   provider_calls (complete h messages stream model).1 = [r] ∧
   ((∃ v, (complete h messages stream model).2 = Returned v) ↔
    stream = true ∨ ∃ msg, messages_create r = Returned msg)) ∧
  (∀ trace e, complete h messages stream model = (trace, Threw e) →
     trace = [] ∨
     (stream = false ∧ trace = [call_messages_create r] ∧
      messages_create r = Threw e)).
Proof.
  intros Hloop text estimate limit r.
  split; [done|]. split; [done|].
  assert ((inject_Z limit < estimate)%Q ↔
          (40000 < Z.of_nat (String.length text))%Z) as Hlen.
  { unfold estimate, token_count, Qlt. simpl. fold text.
    unfold limit, MAX_CLAUDE_INPUT_TOKENS. lia. }
  unfold complete, mbind, task_bind, lift. simpl. rewrite Hloop. simpl.
  fold text estimate limit r.
  destruct (gt estimate (inject_Z limit)) eqn:Hgt.
  - apply gt_lt in Hgt. split_and!.
    + done.
    + exact Hlen.
    + intros Hle. by apply Qlt_not_le in Hgt.
    + intros trace e [= <- _]. by left.
  - assert (¬ (inject_Z limit < estimate)%Q) as Hnlt.
    { intros Hlt. apply gt_lt in Hlt. congruence. }
    split_and!.
    + split; [|done]. destruct stream; simpl; [discriminate|].
      destruct (messages_create r); discriminate.
    + exact Hlen.
    + intros _. destruct stream; simpl.
      * rewrite app_nil_r. split; [apply stream_task_calls|].
        split; [by left | eauto].
      * destruct (messages_create r) as [msg|e]; simpl.
        -- split; [done|]. split; [eauto | eauto].
        -- split; [done|]. split; [by intros [? ?]|].
           intros [?|[? ?]]; done.
    + intros trace e. destruct stream; simpl; [discriminate|].
      destruct (messages_create r) as [msg|e'] eqn:Hcreate; simpl; [discriminate|].
      intros [= <- <-]. by right.
Qed.

Lemma token_limit_witness :
  message_loop (start sample_heap) [0; 1; 2; 3] = Returned sample_state ∧
  ∃ trace v,
    @complete sample_json sample_client sample_heap [0; 1; 2; 3] true None =
      (trace, Returned v).
Proof.
  assert (message_loop (start sample_heap) [0; 1; 2; 3] = Returned sample_state)
    as Hloop by (vm_compute; reflexivity).
  split; [exact Hloop|].
  pose proof (@token_limit sample_json sample_client sample_heap [0; 1; 2; 3]
                true None sample_state Hloop) as Hlimit.
  destruct Hlimit as (_ & _ & _ & _ & Hpass & _).
  destruct Hpass as [_ Hreturns]; [vm_compute; discriminate|].
  destruct (proj2 Hreturns (or_introl eq_refl)) as [v Hv].
  destruct (@complete sample_json sample_client sample_heap [0; 1; 2; 3] true None)
    as [trace result]. simpl in Hv. subst result. eauto.
Defined.

(** *** Further properties of the message loop *)

Lemma effective_role_lookup (h : heap) (m : loc) (msg : message) :
  objects h !! m = Some msg → effective_role h m = default_role (role msg).
Proof. intros Hm. unfold effective_role. by rewrite (role_at_lookup _ _ _ Hm). Qed.

(** The role under which a message is treated does not change in a turn. *)
Lemma message_turn_effective_role (s s' : loop_state) (m x : loc) :
  message_turn s m = Returned s' →
  effective_role (store s') x = effective_role (store s) x.
Proof.
  intros Hturn.
  destruct (message_turn_heap _ _ _ Hturn) as (msg & a & Hm & Hobjs & _).
  pose proof (lookup_lt_Some _ _ _ Hm) as Hlt.
  unfold effective_role, role_at. rewrite Hobjs.
  destruct (decide (x = m)) as [->|Hne].
  - rewrite list_lookup_insert_eq, Hm by done. simpl.
    apply default_role_idempotent.
  - by rewrite list_lookup_insert_ne.
Qed.

Lemma message_loop_effective_role (messages : list loc) (s s' : loop_state) (x : loc) :
  message_loop s messages = Returned s' →
  effective_role (store s') x = effective_role (store s) x.
Proof.
  revert s. induction messages as [|m messages IH]; intros s; cbn [message_loop].
  - by intros [= <-].
  - intros Hloop.
    destruct (message_turn s m) as [s1|] eqn:Hturn; [|done]. simpl in Hloop.
    rewrite (IH _ Hloop). by eapply message_turn_effective_role.
Qed.

(** What the loop places, from any state on; [ρ] is the role under which
    each message is treated. *)
Lemma message_loop_placed (ρ : loc → option string) (messages : list loc)
    (s s' : loop_state) :
  (∀ x, effective_role (store s) x = ρ x) →
  message_loop s messages = Returned s' →
  ∃ placed,
    adapted_messages s' = adapted_messages s ++ placed ∧
    placed `sublist_of` messages ∧
    filter (λ m, ρ m ≠ Some "user" ∧ ρ m ≠ Some "system") placed =
    filter (λ m, ρ m ≠ Some "user" ∧ ρ m ≠ Some "system") messages ∧
    filter (λ m, ρ m = Some "user") placed =
      (if previous_was_user s then []
       else take 1 (filter (λ m, ρ m = Some "user") messages)) ∧
    filter (λ m, ρ m = Some "system") placed = [].
Proof.
  revert s. induction messages as [|m messages IH]; intros s Hρ; cbn [message_loop].
  - intros [= <-]. exists []. rewrite app_nil_r. split_and!; try done.
    by destruct (previous_was_user s).
  - intros Hloop.
    destruct (message_turn s m) as [s1|] eqn:Hturn; [|done]. simpl in Hloop.
    destruct (IH s1) as (placed & Hadapted & Hsub & Hother & Huser & Hsys);
      [|done|].
    { intros x. by rewrite (message_turn_effective_role _ _ _ x Hturn). }
    destruct (message_turn_returned _ _ _ Hturn)
      as (msg & a & arrays1 & Hm & _ & _ & Hcases).
    pose proof (effective_role_lookup _ _ _ Hm) as Hrole. rewrite Hρ in Hrole.
    destruct Hcases as [(Hr & Hprev & l & last_msg & al & old & pushed & _ & _ &
                          _ & _ & _ & _ & Had & _ & Hpr)
                       |[(Hr & parts' & _ & _ & Had & _ & Hpr)
                        |(Hns & Hnu & _ & Had & _ & Hpr)]];
      rewrite <- Hrole in *.
    + exists placed. rewrite Hadapted, Had. split; [done|].
      split; [by apply sublist_cons|].
      rewrite Hpr, Hprev in Huser. rewrite Hprev.
      rewrite filter_cons_False by (intros [? _]; done). done.
    + exists placed. rewrite Hadapted, Had. split; [done|].
      split; [by apply sublist_cons|]. rewrite Hpr in Huser.
      rewrite filter_cons_False by (intros [_ ?]; done).
      rewrite (filter_cons_False (λ m, ρ m = Some "user")) by congruence. done.
    + exists (m :: placed). rewrite Hadapted, Had, <- app_assoc. split; [done|].
      split; [by apply sublist_skip|].
      rewrite (filter_cons_False (λ m, ρ m = Some "system") m placed) by done.
      split; [|split; [|done]].
      * destruct (decide (ρ m = Some "user")) as [Hu|Hu].
        -- rewrite !filter_cons_False by (intros [? _]; done). done.
        -- rewrite !filter_cons_True by done. by rewrite Hother.
      * destruct (decide (ρ m = Some "user")) as [Hu|Hu].
        -- rewrite Hpr, bool_decide_eq_true_2 in Huser by done.
           rewrite (Hnu Hu), !filter_cons_True, Huser by done. done.
        -- rewrite Hpr, bool_decide_eq_false_2 in Huser by done.
           rewrite !filter_cons_False by done. done.
Qed.

(** X5.  The entries of [adapted_messages] are messages of the input, in the
    order of the input: the loop places a message or does not, and never
    reorders, repeats or invents one. *)
Theorem adapted_messages_sublist (h : heap) (messages : list loc) (s : loop_state) :
  message_loop (start h) messages = Returned s →
  adapted_messages s `sublist_of` messages.
Proof.
  intros Hloop.
  destruct (message_loop_placed (effective_role h) messages (start h) s
              (λ _, eq_refl) Hloop)
    as (placed & -> & Hsub & _).
  done.
Qed.

Lemma adapted_messages_sublist_witness :
  message_loop (start sample_heap) [0; 1; 2; 3] = Returned sample_state ∧
  adapted_messages sample_state `sublist_of` [0; 1; 2; 3].
Proof.
  assert (message_loop (start sample_heap) [0; 1; 2; 3] = Returned sample_state)
    as Hloop by (vm_compute; reflexivity).
  split; [exact Hloop|].
  exact (adapted_messages_sublist sample_heap [0; 1; 2; 3] sample_state Hloop).
Defined.

(** X6.  Which messages are placed.  With the role of a message taken as the
    loop treats it (a falsy role is ["user"]): the placed entries that are
    neither user nor system messages are exactly those of the input, in
    order; of the user messages of the input only the first is placed,
    every later one is merged; no system message is placed.  The loop
    does not change the role under which a message is treated. *)
Theorem adapted_messages_placed (h : heap) (messages : list loc) (s : loop_state) :
  message_loop (start h) messages = Returned s →
  filter (λ m, effective_role h m ≠ Some "user" ∧
               effective_role h m ≠ Some "system") (adapted_messages s) =
  filter (λ m, effective_role h m ≠ Some "user" ∧
               effective_role h m ≠ Some "system") messages ∧
  filter (λ m, effective_role h m = Some "user") (adapted_messages s) =
    take 1 (filter (λ m, effective_role h m = Some "user") messages) ∧
  filter (λ m, effective_role h m = Some "system") (adapted_messages s) = [] ∧
  (∀ m, effective_role (store s) m = effective_role h m).
Proof.
  intros Hloop.
  destruct (message_loop_placed (effective_role h) messages (start h) s
              (λ _, eq_refl) Hloop)
    as (placed & -> & _ & Hother & Huser & Hsys).
  split_and!; try done.
  intros m. by rewrite (message_loop_effective_role _ _ _ m Hloop).
Qed.

Lemma adapted_messages_placed_witness :
  message_loop (start alternating_heap) [0; 1; 2] = Returned user_merged ∧
  filter (λ m, effective_role alternating_heap m = Some "user")
         (adapted_messages user_merged) = [0].
Proof.
  assert (message_loop (start alternating_heap) [0; 1; 2] = Returned user_merged)
    as Hloop by (vm_compute; reflexivity).
  split; [exact Hloop|].
  destruct (adapted_messages_placed alternating_heap [0; 1; 2] user_merged Hloop)
    as (_ & Huser & _).
  rewrite Huser. reflexivity.
Defined.


(** X7.  A message that is already in the form the loop wants, an array as
    [content] and a truthy [role], is not written by the assignments that
    open a turn. *)
Theorem prepare_message_unchanged (m : loc) (h : heap) (msg : message) :
  objects h !! m = Some msg →
  is_array (content msg) → truthy (role msg) = true →
  prepare_message m h = Returned h.
Proof.
  intros Hm [a Ha] Hr.
  destruct (prepare_message_returns _ _ _ Hm) as (a' & arrays' & -> & Hcases).
  f_equal. destruct Hcases as [[Hc ->]|(Hna & _)].
  - rewrite (default_role_truthy _ Hr).
    replace {| role := role msg; content := array a' |} with msg
      by (destruct msg; simpl in *; congruence).
    rewrite list_insert_id by done. by destruct h.
  - destruct Hna. by exists a.
Qed.

Lemma prepare_message_unchanged_witness :
  prepare_message 0 (store sample_state) = Returned (store sample_state).
Proof.
  apply (prepare_message_unchanged 0 (store sample_state)
           {| role := Some "user"; content := array 0 |}).
  - reflexivity.
  - by exists 0.
  - reflexivity.
Defined.

Lemma message_turn_not_object (s : loop_state) (m : loc) :
  objects (store s) !! m = None → message_turn s m = Threw TypeError.
Proof.
  intros Hm. unfold message_turn, prepare_message. by rewrite Hm.
Qed.

Lemma message_loop_throws (messages : list loc) (s : loop_state) :
  loop_invariant s → ¬ valid_messages (store s) messages →
  message_loop s messages = Threw TypeError.
Proof.
  revert s. induction messages as [|m messages IH]; intros s Hinv Hnot.
  - destruct Hnot. by intros m ?%elem_of_nil.
  - cbn [message_loop].
    destruct (decide (m < length (objects (store s)))) as [Hlt|Hge].
    + destruct (message_turn_returns s m Hinv Hlt) as [s1 Hturn].
      rewrite Hturn. simpl. apply IH.
      * by eapply message_turn_invariant.
      * intros Hvalid. apply Hnot. intros x [->|Hx]%elem_of_cons; [done|].
        destruct (message_turn_evolves _ _ _ Hturn) as (<- & _). by apply Hvalid.
    + rewrite message_turn_not_object; [done|]. apply lookup_ge_None. lia.
Qed.

(** X8.  On a heap whose array references are to arrays, the loop returns
    exactly when every element of [messages] is an object; otherwise it
    throws a [TypeError], from reading [message.content] of the first
    element that is none. *)
Theorem message_loop_returns_iff (h : heap) (messages : list loc) :
  valid_heap h →
  ((∃ s, message_loop (start h) messages = Returned s) ↔
   valid_messages h messages) ∧
  (¬ valid_messages h messages →
   message_loop (start h) messages = Threw TypeError).
Proof.
  intros Hv. pose proof (loop_invariant_start h Hv) as Hinv.
  assert (¬ valid_messages h messages →
          message_loop (start h) messages = Threw TypeError) as Hthrow
    by exact (message_loop_throws messages (start h) Hinv).
  split; [|done]. split.
  - intros [s Hs].
    destruct (decide (Forall (λ m, m < length (objects h)) messages))
      as [Hvalid|Hnot].
    + intros x Hx. rewrite Forall_forall in Hvalid. by apply Hvalid.
    + rewrite Hthrow in Hs; [done|]. intros Hvalid. apply Hnot.
      apply Forall_forall. exact Hvalid.
  - intros Hvalid. destruct (message_loop_returns messages (start h) Hinv Hvalid)
      as (s & Hs & _). eauto.
Qed.

Lemma message_loop_returns_iff_witness :
  valid_heap sample_heap ∧
  message_loop (start sample_heap) [0; 7; 1] = Threw TypeError.
Proof.
  split; [exact sample_heap_valid|].
  destruct (message_loop_returns_iff sample_heap [0; 7; 1] sample_heap_valid)
    as [_ Hthrow].
  apply Hthrow. intros Hvalid.
  assert (7 < length (objects sample_heap)) as Hlt.
  { apply Hvalid. apply list_elem_of_In. simpl. tauto. }
  simpl in Hlt. lia.
Defined.


(** The arrays after the opening of a turn: the parts of the message are
    in its array, and the arrays there were are as they were. *)
Lemma prepared_parts (h : heap) (msg : message) (a : loc)
    (arrays1 : list (list value)) :
  (content msg = array a ∧ arrays1 = arrays h) ∨
  (¬ is_array (content msg) ∧ a = length (arrays h) ∧
   arrays1 = arrays h ++ [parts h msg]) →
  default [] (arrays1 !! a) = parts h msg.
Proof.
  intros [[Hc ->]|(_ & -> & ->)].
  - unfold parts. by rewrite Hc.
  - by rewrite lookup_app_r, Nat.sub_diag.
Qed.

Lemma prepared_old (h : heap) (msg : message) (a ax : loc)
    (arrays1 : list (list value)) :
  (content msg = array a ∧ arrays1 = arrays h) ∨
  (¬ is_array (content msg) ∧ a = length (arrays h) ∧
   arrays1 = arrays h ++ [parts h msg]) →
  ax < length (arrays h) → arrays1 !! ax = arrays h !! ax.
Proof.
  intros [[Hc ->]|(_ & -> & ->)] Hlt; [done|]. by apply lookup_app_l.
Qed.

Lemma message_turn_merge_parts (s : loop_state) (m : loc) (msg : message) :
  loop_invariant s →
  objects (store s) !! m = Some msg →
  default_role (role msg) = Some "user" →
  previous_was_user s = true →
  ∃ s' l last_msg last_msg',
    message_turn s m = Returned s' ∧
    adapted_messages s' = adapted_messages s ∧
    system_prompts s' = system_prompts s ∧
    previous_was_user s' = true ∧
    last (adapted_messages s) = Some l ∧
    objects (store s) !! l = Some last_msg ∧
    objects (store s') !! l = Some last_msg' ∧
    role last_msg' = role last_msg ∧
    parts (store s') last_msg' = parts (store s) last_msg ++ parts (store s) msg.
Proof.
  intros Hinv Hm Huser Hprev.
  pose proof (lookup_lt_Some _ _ _ Hm) as Hlt.
  destruct (message_turn_returns s m Hinv Hlt) as [s' Hturn].
  destruct Hinv as (Hv & Ha & _).
  destruct (message_turn_returned _ _ _ Hturn)
    as (msg' & a & arrays1 & Hm' & Hprep & Hobjs & Hcases).
  assert (msg' = msg) as -> by congruence. clear Hm'.
  destruct Hcases as [(_ & _ & l & last_msg' & al & old & pushed & Hlast & Hl' &
                        Hc' & Hpushed & Hold & Harr & Had & Hsys & Hpr)
                     |[(Hr & _)|(_ & Hnu & _)]].
  2: { congruence. }
  2: { rewrite (Hnu Huser) in Hprev. done. }
  assert (l ∈ adapted_messages s) as Hl by by apply last_Some_elem_of.
  destruct (Ha _ Hl) as (last_msg & Hlm & [al0 Hal0] & Htr & _).
  pose proof (prepared_parts _ _ _ _ Hprep) as Hparts. rewrite Hpushed in Hparts.
  simpl in Hparts. subst pushed.
  assert (al0 < length (arrays (store s))) as Hal0lt by by eapply Hv.
  assert (al = al0 ∧ role last_msg' = role last_msg) as [-> Hrole].
  { rewrite Hobjs in Hl'. destruct (decide (l = m)) as [->|Hne].
    - rewrite list_lookup_insert_eq in Hl' by done. injection Hl' as <-.
      simpl in *. assert (last_msg = msg) as -> by congruence.
      rewrite (default_role_truthy _ Htr). split; [|done].
      destruct Hprep as [[Hc _]|(Hna & _)]; [congruence|].
      destruct Hna. by exists al0.
    - rewrite list_lookup_insert_ne in Hl' by done.
      assert (last_msg' = last_msg) as -> by congruence.
      split; [congruence | done]. }
  rewrite (prepared_old _ _ _ _ _ Hprep Hal0lt) in Hold.
  exists s', l, last_msg, last_msg'.
  rewrite Hpr, Hprev. split_and!; try done.
  unfold parts at 1 2. rewrite Hc', Hal0, Harr, Hold. simpl.
  rewrite list_lookup_insert_eq; [done|].
  destruct Hprep as [[_ ->]|(_ & _ & ->)]; [done|]. rewrite length_app. lia.
Qed.

(** X9.  The merge.  Once a user message has been placed, the turn on a
    message that is treated as a user message places nothing: it pushes
    the parts of that message onto the content of the last placed entry,
    whatever the role of that entry is, and leaves that role, the system
    prompts and the flag as they are. *)
Theorem message_turn_merges (s : loop_state) (m : loc) (msg : message) :
  loop_invariant s →
  objects (store s) !! m = Some msg →
  default_role (role msg) = Some "user" →
  previous_was_user s = true →
  ∃ s' l last_msg last_msg',
    message_turn s m = Returned s' ∧
    adapted_messages s' = adapted_messages s ∧
    system_prompts s' = system_prompts s ∧
    previous_was_user s' = true ∧
    last (adapted_messages s) = Some l ∧
    objects (store s) !! l = Some last_msg ∧
    objects (store s') !! l = Some last_msg' ∧
    role last_msg' = role last_msg ∧
    parts (store s') last_msg' = parts (store s) last_msg ++ parts (store s) msg.
Proof. apply message_turn_merge_parts. Qed.

Lemma message_turn_merges_witness :
  ∃ s' l last_msg last_msg',
    message_turn assistant_placed 2 = Returned s' ∧
    last (adapted_messages assistant_placed) = Some l ∧
    objects (store assistant_placed) !! l = Some last_msg ∧
    objects (store s') !! l = Some last_msg' ∧
    role last_msg' = Some "assistant" ∧
    parts (store s') last_msg' = [text_part "b"; text_part "c"].
Proof.
  assert (loop_invariant assistant_placed) as Hinv.
  { assert (message_loop (start alternating_heap) [0; 1] = Returned assistant_placed)
      as Hloop by (vm_compute; reflexivity).
    destruct (message_loop_returns [0; 1] (start alternating_heap))
      as (s & Hs & Hinv).
    - apply loop_invariant_start. intros o msg a Ho Hc.
      do 3 (destruct o as [|o]; [injection Ho as <-; discriminate Hc|]).
      discriminate Ho.
    - intros x Hx. apply list_elem_of_In in Hx. simpl in *.
      destruct Hx as [<-|[<-|[]]]; lia.
    - congruence. }
  destruct (message_turn_merges assistant_placed 2
              {| role := Some "user"; content := str "c" |} Hinv
              eq_refl eq_refl eq_refl)
    as (s' & l & last_msg & last_msg' & Hturn & _ & _ & _ & Hlast & Hl & Hl' &
        Hrole & Hparts).
  exists s', l, last_msg, last_msg'.
  split; [exact Hturn|]. split; [exact Hlast|]. split; [exact Hl|].
  split; [exact Hl'|].
  assert (l = 1) as -> by (vm_compute in Hlast; congruence).
  assert (last_msg = {| role := Some "assistant"; content := array 1 |}) as ->
    by (vm_compute in Hl; congruence).
  split; [exact Hrole|]. rewrite Hparts. reflexivity.
Defined.


(** **** Messages that share nothing *)

Lemma conversation_parts_app (h : heap) (l1 l2 : list loc) :
  conversation_parts h (l1 ++ l2) = conversation_parts h l1 ++ conversation_parts h l2.
Proof. unfold conversation_parts. apply bind_app. Qed.

Lemma conversation_parts_cons (h : heap) (x : loc) (l : list loc) :
  conversation_parts h (x :: l) = conversation_parts h [x] ++ conversation_parts h l.
Proof. apply (conversation_parts_app h [x] l). Qed.

Lemma conversation_parts_one (h : heap) (x : loc) (msg : message) :
  objects h !! x = Some msg → conversation_parts h [x] = parts h msg.
Proof. intros Hx. unfold conversation_parts. simpl. by rewrite Hx, app_nil_r. Qed.

Lemma message_turn_unshared (s s' : loop_state) (m : loc) :
  valid_heap (store s) → unshared (store s) →
  message_turn s m = Returned s' → unshared (store s').
Proof.
  intros Hv Hu Hturn.
  destruct (message_turn_returned _ _ _ Hturn)
    as (msg & a & arrays1 & Hm & Hprep & Hobjs & _).
  pose proof (lookup_lt_Some _ _ _ Hm) as Hlt.
  assert (∀ y msgy, y ≠ m → objects (store s) !! y = Some msgy →
                    content msgy ≠ array a) as Hfresh.
  { intros y msgy Hne Hy Hc. destruct Hprep as [[Hcm _]|(_ & -> & _)].
    - apply Hne. by eapply Hu.
    - specialize (Hv _ _ _ Hy Hc). lia. }
  intros x y msgx msgy ax Hx Hy Hcx Hcy. rewrite Hobjs in Hx, Hy.
  destruct (decide (x = m)) as [->|Hxm], (decide (y = m)) as [->|Hym]; try done.
  - rewrite list_lookup_insert_eq in Hx by done. injection Hx as <-.
    rewrite list_lookup_insert_ne in Hy by done. simpl in Hcx.
    injection Hcx as <-. by destruct (Hfresh _ _ Hym Hy).
  - rewrite list_lookup_insert_eq in Hy by done. injection Hy as <-.
    rewrite list_lookup_insert_ne in Hx by done. simpl in Hcy.
    injection Hcy as <-. by destruct (Hfresh _ _ Hxm Hx).
  - rewrite list_lookup_insert_ne in Hx, Hy by done. by eapply Hu.
Qed.

(** A turn leaves the parts of every other message as they are, except
    those of the entry it merges onto. *)
Lemma message_turn_other_parts (s s' : loop_state) (m x : loc) (msgx : message) :
  valid_heap (store s) → unshared (store s) →
  message_turn s m = Returned s' →
  x ≠ m → objects (store s) !! x = Some msgx →
  (last (adapted_messages s) ≠ Some x ∨ adapted_messages s' ≠ adapted_messages s ∨
   system_prompts s' ≠ system_prompts s ∨ role_at (store s) m = Some "system") →
  objects (store s') !! x = Some msgx ∧ parts (store s') msgx = parts (store s) msgx.
Proof.
  intros Hv Hu Hturn Hne Hx Hwhy.
  pose proof (message_turn_unshared _ _ _ Hv Hu Hturn) as Hu'.
  destruct (message_turn_returned _ _ _ Hturn)
    as (msg & a & arrays1 & Hm & Hprep & Hobjs & Hcases).
  assert (objects (store s') !! x = Some msgx) as Hx'
    by by rewrite Hobjs, list_lookup_insert_ne.
  split; [done|]. unfold parts.
  destruct (content msgx) as [| | | | |ax|] eqn:Hcx; try done.
  assert (ax < length (arrays (store s))) as Hax
    by (eapply Hv; [exact Hx | exact Hcx]).
  f_equal. rewrite <- (prepared_old _ _ _ _ _ Hprep Hax).
  destruct Hcases as [(Hr & _ & l & last_msg & al & old & pushed & Hlast & Hl &
                        Hc & _ & _ & -> & Had & Hsys & _)
                     |[(_ & _ & _ & -> & _)|(_ & _ & -> & _)]]; try done.
  apply list_lookup_insert_ne. intros ->.
  assert (l = x) as -> by by eapply Hu'.
  destruct Hwhy as [?|[?|[?|Hs]]]; try done.
  rewrite (role_at_lookup _ _ _ Hm) in Hs.
  apply default_role_system in Hs. congruence.
Qed.

Lemma same_parts (l : list loc) (h h' : heap) :
  (∀ x msgx, x ∈ l → objects h !! x = Some msgx →
     objects h' !! x = Some msgx ∧ parts h' msgx = parts h msgx) →
  length (objects h') = length (objects h) →
  conversation_parts h' (filter (λ x, role_at h' x ≠ Some "system") l) =
  conversation_parts h (filter (λ x, role_at h x ≠ Some "system") l) ∧
  system_parts h' l = system_parts h l.
Proof.
  intros Hsame Hlen. induction l as [|x l IH]; [done|].
  destruct IH as [IHc IHs].
  { intros y msgy Hy. apply Hsame. by right. }
  assert (objects h' !! x = objects h !! x ∧
          conversation_parts h' [x] = conversation_parts h [x]) as [Hobj Hcx].
  { destruct (objects h !! x) as [msgx|] eqn:Hx.
    - destruct (Hsame x msgx) as [Hx' Hp]; [by left | done |].
      by rewrite (conversation_parts_one _ _ _ Hx'), (conversation_parts_one _ _ _ Hx).
    - assert (objects h' !! x = None) as Hx'.
      { apply lookup_ge_None. apply lookup_ge_None in Hx. lia. }
      unfold conversation_parts. simpl. by rewrite Hx, Hx'. }
  assert (role_at h' x = role_at h x) as Hrole by (unfold role_at; by rewrite Hobj).
  split.
  - destruct (decide (role_at h x = Some "system")) as [Hs|Hs].
    + rewrite !filter_cons_False by (intros Hn; apply Hn; congruence). done.
    + rewrite !filter_cons_True by congruence.
      rewrite (conversation_parts_cons h'), (conversation_parts_cons h).
      by rewrite Hcx, IHc.
  - rewrite (system_parts_cons h' x l), (system_parts_cons h x l), IHs. f_equal.
    unfold system_parts. simpl.
    rewrite Hobj. destruct (objects h !! x) as [msgx|] eqn:Hx; [|done].
    rewrite !app_nil_r. case_bool_decide; [|done].
    by destruct (Hsame x msgx) as [_ ->]; [left| |].
Qed.

(** What a turn on a message that is not yet placed adds to the content
    of the conversation. *)
Lemma message_turn_conserves (s s' : loop_state) (m : loc) :
  loop_invariant s → unshared (store s) → NoDup (adapted_messages s) →
  m ∉ adapted_messages s →
  message_turn s m = Returned s' →
  conversation_parts (store s') (adapted_messages s') =
    conversation_parts (store s) (adapted_messages s) ++
    conversation_parts (store s) (filter (λ x, role_at (store s) x ≠ Some "system") [m]).
Proof.
  intros Hinv Hu Hnd Hnotin Hturn.
  pose proof Hinv as (Hv & Ha & _).
  assert (∀ l, (∀ x, x ∈ l → x ∈ adapted_messages s) →
    (last (adapted_messages s) = Some m → False) →
    (∀ x, x ∈ l → last (adapted_messages s) ≠ Some x ∨
                   adapted_messages s' ≠ adapted_messages s ∨
                   system_prompts s' ≠ system_prompts s ∨
                   role_at (store s) m = Some "system") →
    conversation_parts (store s') l = conversation_parts (store s) l) as Hkeep.
  { intros l Hl _ Hwhy. induction l as [|x l IH]; [done|].
    rewrite (conversation_parts_cons (store s')), (conversation_parts_cons (store s)).
    rewrite IH.
    - f_equal. destruct (Ha x) as (msgx & Hx & _); [apply Hl; by left|].
      destruct (message_turn_other_parts _ _ _ x msgx Hv Hu Hturn) as [Hx' Hp];
        try done.
      + intros ->. apply Hnotin, Hl. by left.
      + apply Hwhy. by left.
      + by rewrite (conversation_parts_one _ _ _ Hx'), (conversation_parts_one _ _ _ Hx).
    - intros y Hy. apply Hl. by right.
    - intros y Hy. apply Hwhy. by right. }
  destruct (message_turn_returned _ _ _ Hturn)
    as (msg & a & arrays1 & Hm & Hprep & Hobjs & Hcases).
  pose proof (lookup_lt_Some _ _ _ Hm) as Hlt.
  pose proof (role_at_lookup _ _ _ Hm) as Hrole.
  destruct Hcases as [(Hr & Hprev & l & last_msg' & al & old & pushed & Hlast & _)
                     |[(Hr & parts' & _ & Harr & Had & Hsys & _)
                      |(Hns & _ & Harr & Had & _)]].
  - (* merged *)
    assert (role msg ≠ Some "system") as Hnsys.
    { intros Hs%default_role_system. congruence. }
    rewrite filter_cons_True, filter_nil by congruence.
    rewrite (conversation_parts_one _ _ _ Hm).
    destruct (message_turn_merge_parts s m msg Hinv Hm Hr Hprev)
      as (s2 & l2 & last_msg & last_msg2 & Hturn2 & Had & _ & _ & Hlast2 & Hl &
          Hl' & _ & Hparts).
    assert (s2 = s') as -> by congruence.
    assert (l2 = l) as -> by congruence.
    apply last_Some in Hlast as [init Hinit].
    rewrite Had, Hinit, !conversation_parts_app.
    rewrite (conversation_parts_one _ _ _ Hl), (conversation_parts_one _ _ _ Hl').
    rewrite Hparts, app_assoc. f_equal. f_equal.
    rewrite Hinit in Hnd. apply NoDup_app in Hnd as (_ & Hdisj & _).
    apply Hkeep.
    + intros x Hx. rewrite Hinit. apply elem_of_app. by left.
    + intros Hlm. apply Hnotin. by apply last_Some_elem_of.
    + intros x Hx. left. rewrite Hinit, last_snoc. intros [= ->].
      apply (Hdisj _ Hx). by apply list_elem_of_singleton.
  - (* a system message *)
    assert (role msg = Some "system") as Hs by by apply default_role_system.
    rewrite filter_cons_False, filter_nil by (intros Hn; apply Hn; congruence).
    unfold conversation_parts at 3. simpl. rewrite app_nil_r, Had.
    apply Hkeep; [done| |].
    + intros Hlm. apply Hnotin. by apply last_Some_elem_of.
    + intros x _. right. right. right. congruence.
  - (* a new entry *)
    assert (role msg ≠ Some "system") as Hnsys.
    { intros Hs%default_role_system. done. }
    rewrite filter_cons_True, filter_nil by congruence.
    rewrite Had, conversation_parts_app. f_equal.
    + apply Hkeep; [done| |].
      * intros Hlm. apply Hnotin. by apply last_Some_elem_of.
      * intros x _. right. left. rewrite Had. intros Heq.
        apply (f_equal length) in Heq. rewrite length_app in Heq. simpl in Heq. lia.
    + rewrite (conversation_parts_one _ _ _ Hm).
      erewrite conversation_parts_one
        by (rewrite Hobjs; by apply list_lookup_insert_eq).
      unfold parts at 1. simpl. rewrite Harr.
      by apply prepared_parts.
Qed.

Lemma message_loop_conserves (messages : list loc) (s s' : loop_state) :
  loop_invariant s → unshared (store s) → NoDup (adapted_messages s) →
  NoDup messages → (∀ m, m ∈ messages → m ∉ adapted_messages s) →
  message_loop s messages = Returned s' →
  conversation_parts (store s') (adapted_messages s') =
    conversation_parts (store s) (adapted_messages s) ++
    conversation_parts (store s)
      (filter (λ x, role_at (store s) x ≠ Some "system") messages) ∧
  system_prompts s' = system_prompts s ++ system_parts (store s) messages.
Proof.
  revert s. induction messages as [|m messages IH];
    intros s Hinv Hu Hnd Hndm Hdisj; cbn [message_loop].
  - intros [= <-]. unfold system_parts, conversation_parts. simpl.
    by rewrite !app_nil_r.
  - intros Hloop.
    destruct (message_turn s m) as [s1|] eqn:Hturn; [|done]. simpl in Hloop.
    apply NoDup_cons in Hndm as [Hm Hndm].
    assert (m ∉ adapted_messages s) as Hnotin by (apply Hdisj; by left).
    pose proof Hinv as (Hv & _).
    pose proof (message_turn_invariant _ _ _ Hinv Hturn) as Hinv1.
    pose proof (message_turn_unshared _ _ _ Hv Hu Hturn) as Hu1.
    destruct (message_loop_placed (effective_role (store s)) [m] s s1)
      as (placed & Hplaced & Hsub & _); [done|cbn; by rewrite Hturn|].
    assert (∀ x, x ∈ adapted_messages s1 → x ∈ adapted_messages s ∨ x = m) as Hin1.
    { intros x. rewrite Hplaced. intros [?|Hx]%elem_of_app; [by left|].
      right. apply (elem_of_sublist _ _ _ Hx) in Hsub.
      by apply list_elem_of_singleton in Hsub. }
    destruct (IH s1) as [Hconv Hsys]; try done.
    { rewrite Hplaced. apply NoDup_app. split; [done|]. split.
      - intros x Hx Hx'. pose proof (elem_of_sublist _ _ _ Hx' Hsub) as Hxm.
        apply list_elem_of_singleton in Hxm as ->. done.
      - eapply sublist_NoDup; [apply NoDup_singleton | exact Hsub]. }
    { intros x Hx Hx1. destruct (Hin1 _ Hx1) as [Hx'| ->]; [|done].
      apply (Hdisj x); [by right | done]. }
    destruct (same_parts messages (store s) (store s1)) as [Hsame_c Hsame_s].
    { intros x msgx Hx Hxo.
      apply (message_turn_other_parts s s1 m x msgx Hv Hu Hturn); try done.
      - intros ->. done.
      - left. intros Hlast. apply (Hdisj x); [by right|].
        by apply last_Some_elem_of. }
    { by destruct (message_turn_evolves _ _ _ Hturn) as (-> & _). }
    rewrite Hconv, Hsys, Hsame_c, Hsame_s.
    rewrite (message_turn_conserves _ _ _ Hinv Hu Hnd Hnotin Hturn).
    rewrite (message_turn_system_prompts _ _ _ Hturn).
    rewrite (system_parts_cons (store s) m messages), <- !app_assoc.
    split; [|done]. f_equal.
    rewrite <- conversation_parts_app. f_equal.
    destruct (decide (role_at (store s) m = Some "system")) as [Hs|Hs].
    + rewrite !filter_cons_False by (intros Hn; apply Hn; congruence). done.
    + by rewrite !filter_cons_True.
Qed.

(** X10.  Nothing is lost.  For a sequence that lists each message once, on a
    heap where no array is the content of two messages: the contents of
    the entries of [adapted_messages], one after the other, are exactly
    the contents of the messages of the input that are no system
    messages, in the order of the input, and [system_prompts] is exactly
    the contents of the system messages, in the order of the input. *)
Theorem message_loop_keeps_content (h : heap) (messages : list loc) :
  valid_heap h → unshared h → valid_messages h messages → NoDup messages →
  ∃ s,
    message_loop (start h) messages = Returned s ∧
    conversation_parts (store s) (adapted_messages s) =
      conversation_parts h (filter (λ m, role_at h m ≠ Some "system") messages) ∧
    system_prompts s = system_parts h messages.
Proof.
  intros Hv Hu Hvalid Hnd.
  pose proof (loop_invariant_start h Hv) as Hinv.
  destruct (message_loop_returns messages (start h) Hinv Hvalid) as (s & Hloop & _).
  exists s. split; [done|].
  destruct (message_loop_conserves messages (start h) s Hinv Hu) as [Hc Hs];
    try done.
  { apply NoDup_nil_2. }
  { intros m _. apply not_elem_of_nil. }
Qed.


Lemma array_heap_valid : valid_heap array_heap.
Proof.
  intros o msg a Ho Hc.
  destruct o as [|[|[|[|o]]]]; simpl in *; simplify_eq; simpl in *;
    simplify_eq; lia.
Qed.

Lemma array_heap_unshared : unshared array_heap.
Proof.
  intros x y msgx msgy a Hx Hy Hcx Hcy.
  destruct x as [|[|[|[|x]]]], y as [|[|[|[|y]]]]; simpl in *; simplify_eq;
    simpl in *; simplify_eq; done.
Qed.

Lemma message_loop_keeps_content_witness :
  valid_heap array_heap ∧ unshared array_heap ∧
  valid_messages array_heap [0; 1; 2; 3] ∧ NoDup [0; 1; 2; 3] ∧
  ∃ s,
    message_loop (start array_heap) [0; 1; 2; 3] = Returned s ∧
    conversation_parts (store s) (adapted_messages s) =
      [text_part "a"; text_part "b"; text_part "c"; text_part "ok"] ∧
    system_prompts s = [text_part "be brief"].
Proof.
  assert (valid_messages array_heap [0; 1; 2; 3]) as Hvalid.
  { intros m Hm. apply list_elem_of_In in Hm. simpl in *.
    destruct Hm as [<-|[<-|[<-|[<-|[]]]]]; lia. }
  assert (NoDup [0; 1; 2; 3]) as Hnd.
  { apply NoDup_ListNoDup. repeat constructor; simpl; intros H;
      repeat destruct H as [H|H]; try discriminate H; done. }
  split; [exact array_heap_valid|]. split; [exact array_heap_unshared|].
  split; [exact Hvalid|]. split; [exact Hnd|].
  destruct (message_loop_keeps_content array_heap [0; 1; 2; 3]
              array_heap_valid array_heap_unshared Hvalid Hnd)
    as (s & Hloop & Hconv & Hsys).
  exists s. split; [exact Hloop|]. split.
  - rewrite Hconv. reflexivity.
  - rewrite Hsys. reflexivity.
Defined.


(** *** Further properties of the streaming loop *)

(** X11.  Distinct texts give distinct lines: the escaping loses nothing. *)
Theorem stringify_text_injective (text1 text2 : option string) :
  stringify_text text1 = stringify_text text2 → text1 = text2.
Proof.
  intros Heq.
  assert (Some text1 = Some text2) as [= ->]; [|done].
  by rewrite <- !parse_line_stringify_text, Heq.
Qed.

Lemma stringify_text_injective_witness :
  stringify_text (Some "a") = stringify_text (Some "a") ∧ Some "a" = Some "a".
Proof.
  split; [reflexivity|].
  apply (stringify_text_injective (Some "a") (Some "a")). reflexivity.
Defined.

Lemma code_units_app (a b : string) :
  code_units (a +:+ b) = code_units a ++ code_units b.
Proof.
  unfold code_units. induction a as [|c a IH]; [done|].
  rewrite append_cons. cbn [list_ascii_of_string fmap list_fmap app].
  f_equal. exact IH.
Qed.

Lemma quote_code_unit_printable (c : ascii) :
  forallb (λ n, 32 <=? n) (code_units (quote_code_unit c)) = true.
Proof. destruct c as [[] [] [] [] [] [] [] []]; reflexivity. Qed.

Lemma printable_app (a b : string) :
  forallb (λ n, 32 <=? n) (code_units a) = true →
  forallb (λ n, 32 <=? n) (code_units b) = true →
  forallb (λ n, 32 <=? n) (code_units (a +:+ b)) = true.
Proof. intros Ha Hb. by rewrite code_units_app, forallb_app, Ha, Hb. Qed.

Lemma quote_code_units_printable (s : string) :
  forallb (λ n, 32 <=? n) (code_units (quote_code_units s)) = true.
Proof.
  induction s as [|c s IH]; [done|]. cbn [quote_code_units].
  apply printable_app; [apply quote_code_unit_printable | done].
Qed.

Lemma printable_cons (c : ascii) (s : string) :
  (32 <=? nat_of_ascii c) = true →
  forallb (λ n, 32 <=? n) (code_units s) = true →
  forallb (λ n, 32 <=? n) (code_units (String c s)) = true.
Proof.
  intros Hc Hs. unfold code_units in *. cbn [list_ascii_of_string fmap list_fmap forallb].
  by rewrite Hc.
Qed.

Lemma stringify_text_printable (text : option string) :
  forallb (λ n, 32 <=? n) (code_units (stringify_text text)) = true.
Proof.
  destruct text as [text|]; [|reflexivity].
  unfold stringify_text, quote.
  change (quote_code_units "text") with "text".
  repeat (rewrite append_assoc || rewrite append_cons || rewrite append_nil).
  repeat (apply printable_cons; [reflexivity|]).
  apply printable_app; [apply quote_code_units_printable | reflexivity].
Qed.

(** The loop only pulls and writes, and what it writes is the line of a
    text. *)
Lemma for_await_effects (counts : Counts.t) (completion : list Event.t)
    (rejection : option exn) :
  Forall (λ e, (∃ event, e = completion_next event) ∨
               (∃ text, e = stream_write (stringify_text text +:+ String line_feed "")))
         (for_await counts completion rejection).1.
Proof.
  revert counts. induction completion as [|event completion IH]; intros counts.
  - destruct rejection; repeat constructor. eauto.
  - destruct (for_await_cons_any counts event completion rejection)
      as [[_ ->]|[_ ->]].
    + specialize (IH (count counts event)).
      destruct (for_await (count counts event) completion rejection) as [more r].
      simpl in *. constructor; [eauto|].
      destruct (text_delta event) as [delta|]; simpl; [|done].
      constructor; [|done]. right. eauto.
    + repeat constructor. eauto.
Qed.

(** X12.  The framing of the output.  On any sequence of events, well
    formed or not, and however the iterator finishes, every chunk
    written to the stream is the JSON text of [{ text }] for some text,
    followed by one line feed (the code unit 10); the chunk reads back
    as the StreamEvent with that text; and the JSON text holds no code
    unit below 32, so no line feed: a chunk is exactly one line. *)
Theorem stream_chunks_are_lines (counts : Counts.t) (completion : list Event.t)
    (rejection : option exn) :
  Forall (λ chunk, ∃ text,
            chunk = stringify_text text +:+ String "010" "" ∧
            parse_line chunk = Some text ∧
            Forall (λ n, 32 ≤ n) (code_units (stringify_text text)))
         (written (for_await counts completion rejection).1).
Proof.
  pose proof (for_await_effects counts completion rejection) as Heff.
  induction Heff as [|e trace He _ IH]; [constructor|].
  destruct He as [[event ->]|(text & ->)]; [exact IH|].
  change (written (stream_write ?c :: trace)) with (c :: written trace).
  constructor; [|exact IH]. exists text. split; [done|].
  split; [apply parse_line_stringify_text|].
  apply Forall_forall. intros n Hn%list_elem_of_In.
  pose proof (stringify_text_printable text) as Hbody.
  rewrite forallb_forall in Hbody. apply Nat.leb_le. by apply Hbody.
Qed.

(** How the loop finishes: with the counts or with the rejection of the
    iterator if every event is well formed, with a [TypeError]
    otherwise. *)
Lemma for_await_result (counts : Counts.t) (completion : list Event.t)
    (rejection : option exn) :
  (Forall well_formed completion ∧
   (for_await counts completion rejection).2 =
     match rejection with
     | None => Returned (foldl count counts completion)
     | Some e => Threw e
     end) ∨
  (¬ Forall well_formed completion ∧
   (for_await counts completion rejection).2 = Threw TypeError).
Proof.
  revert counts. induction completion as [|event completion IH]; intros counts.
  - left. split; [constructor|]. by destruct rejection.
  - destruct (for_await_cons_any counts event completion rejection)
      as [[Hwf ->]|[Hwf ->]].
    + specialize (IH (count counts event)).
      destruct (for_await (count counts event) completion rejection) as [more r].
      simpl in *. destruct IH as [[Hall ->]|[Hall ->]].
      * left. split; [by constructor | done].
      * right. split; [|done]. by intros [_ ?]%Forall_cons_1.
    + right. split; [|done]. by intros [? _]%Forall_cons_1.
Qed.

(** X13.  The outcomes of the background task.  It completes exactly
    when [messages.stream] gives a stream, every event of it is well
    formed and its iterator finishes by exhaustion.  Otherwise it throws:
    what [messages.stream] threw, a [TypeError] at the first event that
    is not well formed, or else what the iterator rejected with; and
    then it has neither ended the output stream nor resolved
    [usage_promise]. *)
Theorem stream_task_outcome `{Anthropic} (r : request) :
  ((stream_task r).2 = Returned () ↔
   ∃ events,
     messages_stream r =
       Returned {| MessageStream.events := events;
                   MessageStream.rejection := None |} ∧
     Forall well_formed events) ∧
  (∀ e, (stream_task r).2 = Threw e →
     (stream_end ∉ (stream_task r).1) ∧
     resolved (stream_task r).1 = [] ∧
     (messages_stream r = Threw e ∨
      ∃ completion,
        messages_stream r = Returned completion ∧
        ((¬ Forall well_formed (MessageStream.events completion) ∧ e = TypeError) ∨
         (Forall well_formed (MessageStream.events completion) ∧
          MessageStream.rejection completion = Some e)))).
Proof.
  unfold stream_task, mbind, task_bind. simpl.
  destruct (messages_stream r) as [[events rejection]|e0] eqn:Hstream; simpl.
  2: { split.
       - split; [done|]. by intros (? & ? & _).
       - intros e [= <-]. split_and!; [|done|by left].
         by intros ?%list_elem_of_singleton. }
  pose proof (for_await_effects no_counts events rejection) as Heff.
  destruct (for_await_result no_counts events rejection) as [[Hwf Hr]|[Hwf Hr]];
    destruct (for_await no_counts events rejection) as [turns result];
    simpl in *; subst result.
  - destruct rejection as [e0|]; simpl.
    + split.
      * split; [done|]. by intros (? & [= _ ?] & _).
      * intros e [= <-]. split_and!.
        -- intros [?|Hin]%elem_of_cons; [done|].
           rewrite Forall_forall in Heff.
           destruct (Heff _ Hin) as [[? ?]|[? ?]]; done.
        -- change (resolved turns = []). apply resolved_none.
           eapply Forall_impl; [exact Heff|]. intros e [[? ->]|[? ->]]; done.
        -- right. eexists. split; [done|]. right. done.
    + split; [|done]. split; [|done]. intros _. by exists events.
  - split.
    + split; [done|]. intros (events' & [= <- ?] & Hwf'). done.
    + intros e [= <-]. split_and!.
      * intros [?|Hin]%elem_of_cons; [done|].
        rewrite Forall_forall in Heff.
        destruct (Heff _ Hin) as [[? ?]|[? ?]]; done.
      * change (resolved turns = []). apply resolved_none.
        eapply Forall_impl; [exact Heff|]. intros e [[? ->]|[? ->]]; done.
      * right. eexists. split; [done|]. left. done.
Qed.

Lemma stream_task_outcome_witness :
  (@stream_task failing_client sample_request).2 = Threw (Rejection "overloaded") ∧
  written (@stream_task failing_client sample_request).1 =
    [stringify_text (Some "Hel") +:+ String line_feed ""] ∧
  resolved (@stream_task failing_client sample_request).1 = [].
Proof.
  assert ((@stream_task failing_client sample_request).2 =
          Threw (Rejection "overloaded")) as Hthrew by reflexivity.
  destruct (@stream_task_outcome failing_client sample_request) as [_ Hthrown].
  destruct (Hthrown _ Hthrew) as (_ & Hresolved & _).
  split; [exact Hthrew|]. split; [reflexivity | exact Hresolved].
Defined.

(** X14.  The loop is incremental: what it has done for the well-formed
    events so far is not changed by the events to come, nor by how the
    iterator finishes after them, which only add to it. *)
Theorem for_await_app (counts : Counts.t) (done_ more : list Event.t)
    (rejection : option exn) :
  Forall well_formed done_ →
  ∃ turns,
    for_await counts done_ None =
      (turns ++ [completion_next None], Returned (foldl count counts done_)) ∧
    for_await counts (done_ ++ more) rejection =
      (turns ++ (for_await (foldl count counts done_) more rejection).1,
       (for_await (foldl count counts done_) more rejection).2) ∧
    written turns `prefix_of` written (for_await counts (done_ ++ more) rejection).1.
Proof.
  intros Hwf. revert counts.
  induction Hwf as [|event done_ Hev _ IH]; intros counts.
  - exists []. simpl. split; [done|].
    split; [by destruct (for_await counts more rejection)|].
    apply prefix_nil.
  - destruct (IH (count counts event)) as (turns & Hdone & Happ & _).
    exists (completion_next (Some event) ::
            match text_delta event with
            | Some delta =>
                [stream_write (stringify_text (Delta.text delta) +:+ String line_feed "")]
            | None => []
            end ++ turns).
    assert (for_await counts ((event :: done_) ++ more) rejection =
      ((completion_next (Some event) ::
        match text_delta event with
        | Some delta =>
            [stream_write (stringify_text (Delta.text delta) +:+ String line_feed "")]
        | None => []
        end ++ turns) ++
       (for_await (foldl count counts (event :: done_)) more rejection).1,
       (for_await (foldl count counts (event :: done_)) more rejection).2)) as Hall.
    { cbn [app foldl]. rewrite (for_await_cons _ _ _ _ Hev), Happ.
      by destruct (text_delta event). }
    split; [|split; [exact Hall|]].
    + rewrite (for_await_cons _ _ _ _ Hev), Hdone. cbn [foldl].
      by destruct (text_delta event).
    + rewrite Hall. cbn [fst]. rewrite written_app. by apply prefix_app_r.
Qed.

Lemma for_await_app_witness :
  Forall well_formed [text_event "Hel"] ∧
  written (for_await no_counts [text_event "Hel"; text_event "lo"]
                     (Some (Rejection "overloaded"))).1 =
    written (for_await no_counts [text_event "Hel"] None).1 ++
    written (for_await no_counts [text_event "lo"]
                       (Some (Rejection "overloaded"))).1.
Proof.
  assert (Forall well_formed [text_event "Hel"]) as Hwf.
  { repeat constructor. intros _. vm_compute. eauto. }
  split; [exact Hwf|].
  destruct (for_await_app no_counts [text_event "Hel"] [text_event "lo"]
              (Some (Rejection "overloaded")) Hwf)
    as (turns & Hdone & Happ & _).
  cbn [app] in Happ. rewrite Happ, Hdone. cbn [fst].
  rewrite !written_app. cbn [foldl]. simpl. by rewrite app_nil_r.
Defined.

(** ** [complete] as a whole *)

(** X15.  What a call of [complete] does.  If it throws, the exception
    is the one of the message loop, or the [max_tokens_exceeded] error of
    a count above the limit, and then nothing has been done to the
    outside; or it is the rejection of [messages.create], in the branch
    without a stream, after that one call.  If it returns, the loop has
    returned and the count is within the limit; the provider has then
    been called exactly once, with the model asked for or the default
    one, 1000 tokens, temperature 0, the prompt with the system parts and
    the adapted messages.  The streaming branch returns its intermediate
    value whatever becomes of its background task. *)
Theorem complete_outcome `{JSON} `{Anthropic}
    (h : heap) (messages : list loc) (stream : bool) (model : option string) :
  let request_of (s : loop_state) :=
    {| model := nullish model get_default_model;
       max_tokens := 1000;
       temperature := 0;
       system := PUTER_PROMPT +:+ stringify_values (store s) (system_prompts s);
       ClaudeService.messages := adapted_messages s |} in
  match (complete h messages stream model).2 with
  | Threw e =>
      (message_loop (start h) messages = Threw e ∧
       (complete h messages stream model).1 = []) ∨
      (∃ s, message_loop (start h) messages = Returned s ∧
            gt (token_count s) (inject_Z MAX_CLAUDE_INPUT_TOKENS) = true ∧
            e = APIError "max_tokens_exceeded" (token_count s) MAX_CLAUDE_INPUT_TOKENS ∧
            (complete h messages stream model).1 = []) ∨
      (∃ s, message_loop (start h) messages = Returned s ∧
            gt (token_count s) (inject_Z MAX_CLAUDE_INPUT_TOKENS) = false ∧
            stream = false ∧
            messages_create (request_of s) = Threw e ∧
            (complete h messages stream model).1 =
              [call_messages_create (request_of s)])
  | Returned c =>
      ∃ s, message_loop (start h) messages = Returned s ∧
           gt (token_count s) (inject_Z MAX_CLAUDE_INPUT_TOKENS) = false ∧
           provider_calls (complete h messages stream model).1 = [request_of s] ∧
           (if stream then
              c = intermediate true ∧
              (complete h messages stream model).1 = (stream_task (request_of s)).1
            else
              ∃ msg,
                messages_create (request_of s) = Returned msg ∧
                c = completed msg (usage msg) "stop" ∧
                (complete h messages stream model).1 =
                  [call_messages_create (request_of s)])
  end.
Proof.
  intros request_of.
  unfold complete, mbind, task_bind, lift. simpl.
  destruct (message_loop (start h) messages) as [s|e] eqn:Hloop; simpl; [|by left].
  destruct (gt (token_count s) (inject_Z MAX_CLAUDE_INPUT_TOKENS)) eqn:Hgt; simpl.
  { right. left. by exists s. }
  fold (request_of s).
  destruct stream; simpl.
  - exists s. rewrite app_nil_r. split_and!; try done. apply stream_task_calls.
  - destruct (messages_create (request_of s)) as [msg|e] eqn:Hcreate; simpl.
    + exists s. split_and!; try done. by exists msg.
    + right. right. by exists s.
Qed.

Lemma complete_outcome_witness :
  (@complete sample_json failing_client sample_heap [0; 1; 2; 3] false None).2 =
    Threw (Rejection "overloaded") ∧
  provider_calls
    (@complete sample_json failing_client sample_heap [0; 1; 2; 3] false None).1 ≠ [] ∧
  (@complete sample_json failing_client sample_heap [0; 1; 2; 3] true None).2 =
    Returned (intermediate true).
Proof.
  pose proof (@complete_outcome sample_json failing_client sample_heap
                [0; 1; 2; 3] false None) as Hplain.
  pose proof (@complete_outcome sample_json failing_client sample_heap
                [0; 1; 2; 3] true None) as Hstream.
  cbv zeta in Hplain, Hstream.
  assert ((@complete sample_json failing_client sample_heap [0; 1; 2; 3] false None).2 =
          Threw (Rejection "overloaded")) as Hthrew by (vm_compute; reflexivity).
  assert ((@complete sample_json failing_client sample_heap [0; 1; 2; 3] true None).2 =
          Returned (intermediate true)) as Hreturned by (vm_compute; reflexivity).
  rewrite Hthrew in Hplain. rewrite Hreturned in Hstream.
  split; [exact Hthrew|]. split; [|exact Hreturned].
  destruct Hplain as [[Hl _]|[(s & _ & _ & He & _)|(s & _ & _ & _ & _ & ->)]].
  - vm_compute in Hl. discriminate Hl.
  - discriminate He.
  - discriminate.
Defined.

(** ** The prompt *)

Lemma substring_all (s : string) (n : nat) :
  String.length s ≤ n → String.substring 0 n s = s.
Proof.
  revert n. induction s as [|c s IH]; intros [|n] Hn; simpl in *; try done; try lia.
  f_equal. apply IH. lia.
Qed.

(** X16.  [replace] with a string pattern replaces the first match only, and
    the first line feed of the template is its first character, which
    [trim] would remove anyway: on any template that starts with a line
    feed the call of [replace] changes nothing of the result.  So the
    line feeds and the indentation inside the prompt stay. *)
Theorem PUTER_PROMPT_line_feeds :
  (∀ template,
     trim (replace (String line_feed "") " " (String line_feed template)) =
     trim (String line_feed template)) ∧
  PUTER_PROMPT =
    "You are running on an open-source platform called Puter," +:+
    String line_feed "    as the Claude implementation for a driver interface" +:+
    String line_feed "    called puter-chat-completion." +:+
    String line_feed "    " +:+
    String line_feed "    The following JSON contains system messages from the" +:+
    String line_feed "    user of the driver interface (typically an app on Puter):".
Proof.
  split; [|vm_compute; reflexivity].
  intros template.
  assert (replace (String line_feed "") " " (String line_feed template) =
          String " " template) as ->.
  { cbn [replace String.prefix]. destruct (ascii_dec line_feed line_feed); [|done].
    cbn [String.prefix String.length String.substring].
    assert (String.prefix "" template = true) as -> by (by destruct template).
    rewrite append_cons, append_nil. f_equal. apply substring_all. lia. }
  reflexivity.
Qed.

(** ** The names of the models *)

Lemma model_names_foldl (catalogue : list Model.t) (names : list string) :
  foldl (λ model_names model,
           let model_names := model_names ++ [Model.id model] in
           match Model.aliases model with
           | Some aliases => model_names ++ aliases
           | None => model_names
           end) names catalogue =
  names ++ (catalogue ≫= λ model, Model.id model :: default [] (Model.aliases model)).
Proof.
  revert names. induction catalogue as [|model catalogue IH]; intros names.
  - simpl. by rewrite app_nil_r.
  - cbn [foldl]. rewrite IH. rewrite bind_cons.
    destruct (Model.aliases model) as [aliases|]; simpl;
      rewrite <- ?app_assoc; simpl; by rewrite ?app_nil_r.
Qed.

(** X17.  [list ()] flattens a catalogue: a name is listed exactly when it is
    the id or an alias of a model, the ids come in the order of the
    catalogue, and a catalogue whose models have no aliases is listed as
    its ids.  On the catalogue of the service no name is listed twice,
    and the default model is one of the names. *)
Theorem list_names :
  (∀ catalogue name,
     name ∈ model_names_of catalogue ↔
     ∃ model, model ∈ catalogue ∧
       (name = Model.id model ∨
        ∃ aliases, Model.aliases model = Some aliases ∧ name ∈ aliases)) ∧
  (∀ catalogue, Model.id <$> catalogue `sublist_of` model_names_of catalogue) ∧
  (∀ catalogue,
     Forall (λ model, Model.aliases model = None) catalogue →
     model_names_of catalogue = Model.id <$> catalogue) ∧
  NoDup list_ ∧
  get_default_model ∈ list_.
Proof.
  assert (∀ catalogue, model_names_of catalogue =
    catalogue ≫= λ model, Model.id model :: default [] (Model.aliases model)) as Hflat.
  { intros catalogue. unfold model_names_of. by rewrite model_names_foldl. }
  split_and!.
  - intros catalogue name. rewrite Hflat, list_elem_of_bind. split.
    + intros (model & Hin & Hm). exists model. split; [done|].
      apply elem_of_cons in Hin as [->|Hin]; [by left|right].
      destruct (Model.aliases model) as [aliases|]; simpl in Hin.
      * by exists aliases.
      * by apply elem_of_nil in Hin.
    + intros (model & Hm & [->|(aliases & Hal & Hin)]); exists model; split; try done.
      * apply elem_of_cons. by left.
      * apply elem_of_cons. right. by rewrite Hal.
  - intros catalogue. rewrite Hflat.
    induction catalogue as [|model catalogue IH]; [done|].
    rewrite fmap_cons, bind_cons. cbn [app]. apply sublist_skip.
    by apply sublist_inserts_l.
  - intros catalogue Hnone. rewrite Hflat.
    induction Hnone as [|model catalogue Hm _ IH]; [done|].
    rewrite fmap_cons, bind_cons, Hm, IH. done.
  - apply (bool_decide_unpack _). by vm_compute.
  - apply (bool_decide_unpack _). by vm_compute.
Qed.

End ClaudeServiceFacts.
